(** * Photo slideshow builder (index.ts): model and properties

    The first part is the program: the data model (interfaces [TagEntry],
    [Photo], [Slide], [Slideshow]), the scorer ([compareSlides],
    [getScore]), the text reader ([readPhoto], [readFile]), the slide
    constructors and the solver ([solve]), followed by the notions the
    properties are stated with.  The second part proves the properties.

    Conventions.
    - A JavaScript string is a [string]; each character stands for the
      code unit of the same value (code units below 256).
    - A tag is [option string]: [None] is the value [undefined], which
      [readPhoto] stores when it indexes past the end of [parts].
    - Counters and scores are [Z]; array indices and photo ids are [nat].
    - [Map<string, TagEntry>] is a [gmap]; the two module-level variables
      [photos] and [allTags] are threaded as a [State] record.
    - A loop with an index runs on fuel; [None] is an exception or the end
      of the fuel, and the properties show that neither occurs.
    - [readPhoto], and [readFile] with it, is [None] on a tag count outside
      the range of [tripCount].  That says nothing of the program there:
      each property of [readFile] is stated on the files whose tag counts
      are in the range, and shows that [readFile] returns on them. *)

From stdpp Require Import gmap strings list fin_maps.
From Stdlib Require Import ZArith Lia Ascii DecimalString DecimalNat.

Local Open Scope Z_scope.

(** ** Data model *)

(** An element of a [string[]] at run time: a string, or [undefined]. *)
Abbreviation Tag := (option string).

Module TagEntry.
Record t := mk { tag : Tag; photoIds : list nat }.
End TagEntry.

Module Photo.
Record t := mk {
  id : nat;
  orientation : string;
  tags : list Tag;
  tagScore : Z
}.
End Photo.

Module Slide.
Record t := mk { photos : list Photo.t; tags : list Tag }.
End Slide.

Module Slideshow.
Record t := mk { slides : list Slide.t; score : Z }.
End Slideshow.

(** The module-level variables [photos] and [allTags]. *)
Record State := mkState {
  photos : list Photo.t;
  allTags : gmap Tag TagEntry.t
}.

(** [reset()] *)
Definition reset : State := mkState [] ∅.

(** ** Scorer *)

(** [Array.prototype.includes] on a tag array: a left-to-right scan. *)
Fixpoint includes (l : list Tag) (t : Tag) : bool :=
  match l with
  | [] => false
  | x :: l' => if decide (x = t) then true else includes l' t
  end.

(** [compareSlides]: three counting loops, then [Math.min] of the three. *)
Definition compareSlides (slide1 slide2 : Slide.t) : Z :=
  let commonTags :=
    foldl (fun n tag => if includes (Slide.tags slide2) tag then n + 1 else n)
          0 (Slide.tags slide1) in
  let uncommonLeftTags :=
    foldl (fun n tag => if negb (includes (Slide.tags slide2) tag) then n + 1 else n)
          0 (Slide.tags slide1) in
  let uncommonRightTags :=
    foldl (fun n tag => if negb (includes (Slide.tags slide1) tag) then n + 1 else n)
          0 (Slide.tags slide2) in
  Z.min (Z.min commonTags uncommonLeftTags) uncommonRightTags.

(** The loop of [getScore]; [i] is the loop index and [score] the
    accumulator.  Reading [slides[i]] or [slides[i + 1]] past the end gives
    [undefined], on which [compareSlides] throws: that is [None], as is
    running out of [fuel]. *)
Fixpoint getScore_loop (fuel : nat) (slides : list Slide.t) (i : nat) (score : Z)
  : option Z :=
  match fuel with
  | O => None
  | S fuel' =>
      if bool_decide (Z.of_nat i < Z.of_nat (length slides)) then
        if bool_decide (Z.of_nat i = Z.of_nat (length slides) - 1) then Some score
        else
          match slides !! i, slides !! (i + 1)%nat with
          | Some s1, Some s2 =>
              getScore_loop fuel' slides (S i) (score + compareSlides s1 s2)
          | _, _ => None
          end
      else Some score
  end.

(** [getScore] *)
Definition getScore (slideshow : Slideshow.t) : option Z :=
  let slides := Slideshow.slides slideshow in
  getScore_loop (S (length slides)) slides 0 0.


(** ** Strings and numbers of the host language *)

(** [String.prototype.split] with a one-character separator.  The result
    is never empty: the empty string splits into one empty string. *)
Fixpoint split (sep : ascii) (s : string) : list string :=
  match s with
  | EmptyString => [EmptyString]
  | String c s' =>
      if decide (c = sep) then EmptyString :: split sep s'
      else match split sep s' with
           | w :: ws => String c w :: ws
           | [] => [String c EmptyString]
           end
  end.

(** White space and line terminators among the code units below 256:
    TAB, LF, VT, FF, CR, SP and NBSP. *)
Definition isWhiteSpace (c : ascii) : bool :=
  match c with
  | "009" | "010" | "011" | "012" | "013" | " " | "160" => true
  | _ => false
  end%char.

Fixpoint trimStart (s : string) : string :=
  match s with
  | String c s' => if isWhiteSpace c then trimStart s' else s
  | EmptyString => EmptyString
  end.

Definition trimEnd (s : string) : string :=
  String.rev (trimStart (String.rev s)).

(** [String.prototype.trim] *)
Definition trim (s : string) : string := trimEnd (trimStart s).

(** A Number as far as [readPhoto] observes it: not-a-number, an infinity,
    or the decimal value [mantissa * 10 ^ exponent] of a numeric literal
    with its sign.  The Number itself is the double nearest that value. *)
Inductive JSNumber :=
  | NaN
  | Infinity (negative : bool)
  | Decimal (negative : bool) (mantissa : N) (exponent : Z).

Definition isDigit (c : ascii) : bool :=
  match Ascii.is_nat c with Some _ => true | None => false end.

Definition digitValue (c : ascii) : N :=
  match Ascii.is_nat c with Some d => N.of_nat d | None => 0%N end.

(** Reads the longest run of decimal digits at the start of [s]: the value
    accumulated onto [acc], the number of digits read, and the rest. *)
Fixpoint readDigits (s : string) (acc : N) (count : nat) : N * nat * string :=
  match s with
  | String c s' =>
      if isDigit c then readDigits s' (acc * 10 + digitValue c)%N (S count)
      else (acc, count, s)
  | EmptyString => (acc, count, s)
  end.

(** An optional exponent part [e], [e+] or [e-] followed by digits; it
    counts only when at least one digit follows. *)
Definition readExponent (s : string) : Z :=
  match s with
  | String c s' =>
      if decide (c = "e"%char \/ c = "E"%char) then
        let '(negative, s'') :=
          match s' with
          | String "+" r => (false, r)
          | String "-" r => (true, r)
          | _ => (false, s')
          end in
        let '(e, n, _) := readDigits s'' 0%N 0%nat in
        if decide (n = 0%nat) then 0
        else if negative : bool then - Z.of_N e else Z.of_N e
      else 0
  | EmptyString => 0
  end.

(** The longest prefix of [s] that is an unsigned decimal literal
    ([digits], [digits.], [digits.digits], [.digits], each with an
    optional exponent), as mantissa and exponent; [None] when no prefix
    is one. *)
Definition readUnsignedDecimal (s : string) : option (N * Z) :=
  let '(m1, n1, r1) := readDigits s 0%N 0%nat in
  match r1 with
  | String "." r2 =>
      let '(m2, n2, r3) := readDigits r2 m1 0%nat in
      if decide (n1 = 0%nat /\ n2 = 0%nat) then None
      else Some (m2, readExponent r3 - Z.of_nat n2)
  | _ =>
      if decide (n1 = 0%nat) then None else Some (m1, readExponent r1)
  end.

Fixpoint startsWith (prefix s : string) : bool :=
  match prefix, s with
  | EmptyString, _ => true
  | String a p', String b s' => if decide (a = b) then startsWith p' s' else false
  | String _ _, EmptyString => false
  end.

Definition readUnsigned (negative : bool) (s : string) : JSNumber :=
  if startsWith "Infinity" s then Infinity negative
  else match readUnsignedDecimal s with
       | Some (m, e) => Decimal negative m e
       | None => NaN
       end.

(** [ToString] of an array element. *)
Definition ToString (v : option string) : string :=
  match v with Some s => s | None => "undefined" end.

(** The global [parseFloat]: the argument is converted to a string, leading
    white space is dropped, and the longest prefix that is a decimal
    literal is read; [NaN] when there is none. *)
Definition parseFloat (v : option string) : JSNumber :=
  match trimStart (ToString v) with
  | String "+" r => readUnsigned false r
  | String "-" r => readUnsigned true r
  | s => readUnsigned false s
  end.

(** Number of times the body of [for (let i = 0; i < numTags; i++)] runs.
    [NaN], negative values and zero give no iteration.  A positive integer
    below [2 ^ 32] (the limit on the length of an array) gives that many.
    For the other values the result is [None]: the loop does not end
    ([Infinity]), builds an array beyond the limit, or its trip count
    depends on how the literal rounds to a double (fractions). *)
Definition tripCount (numTags : JSNumber) : option nat :=
  match numTags with
  | NaN => Some 0%nat
  | Infinity true => Some 0%nat
  | Infinity false => None
  | Decimal negative m e =>
      if negative then Some 0%nat
      else if decide (m = 0%N) then Some 0%nat
      else if decide (10 <= e) then None
      else if decide (0 <= e) then
        let v := (m * 10 ^ Z.to_N e)%N in
        if decide (v < 2 ^ 32)%N then Some (N.to_nat v) else None
      else
        let d := (10 ^ Z.to_N (- e))%N in
        if decide ((m mod d = 0)%N /\ (m / d < 2 ^ 32)%N)
        then Some (N.to_nat (m / d)) else None
  end.

(** ** Reading the input *)

(** The loop of [readPhoto]: [n] iterations are left, [i] is the loop index;
    each one appends [parts[i + 2]], which is [undefined] past the end. *)
Fixpoint readPhoto_loop (parts : list string) (n i : nat) (tags : list Tag)
  : list Tag :=
  match n with
  | O => tags
  | S n' => readPhoto_loop parts n' (S i) (tags ++ [parts !! (i + 2)%nat])
  end.

(** [readPhoto].  [parts] is never empty, so [parts[0]] is a string.  The
    result is [None] only when [tripCount] is. *)
Definition readPhoto (line : string) (nextIndex : nat) : option Photo.t :=
  let parts := split " " line in
  let orientation := ToString (parts !! 0%nat) in
  let numTags := parseFloat (parts !! 1%nat) in
  n ← tripCount numTags;
  Some (Photo.mk nextIndex orientation (readPhoto_loop parts n 0 []) 0).

(** The callback of [photo.tags.forEach] in [readFile]: registers the photo
    under one tag. *)
Definition registerTag (photo : Photo.t) (allTags : gmap Tag TagEntry.t) (tag : Tag)
  : gmap Tag TagEntry.t :=
  match allTags !! tag with
  | Some tagEntry =>
      <[tag := TagEntry.mk (TagEntry.tag tagEntry)
                           (TagEntry.photoIds tagEntry ++ [Photo.id photo])]> allTags
  | None => <[tag := TagEntry.mk tag [Photo.id photo]]> allTags
  end.

(** The loop of [readFile] over the lines after the first. *)
Fixpoint readFile_loop (lines : list string) (nextIndex : nat) (st : State)
  : option State :=
  match lines with
  | [] => Some st
  | line :: rest =>
      if decide (line = "") then readFile_loop rest nextIndex st
      else
        photo ← readPhoto (trim line) nextIndex;
        let allTags' := foldl (registerTag photo) (allTags st) (Photo.tags photo) in
        readFile_loop rest (S nextIndex) (mkState (photos st ++ [photo]) allTags')
  end.

(** [readFile], on the text [data] of the file.  The first line holds the
    number of photos; it is parsed and not used. *)
Definition readFile (data : string) (st : State) : option State :=
  let dataByLine := split "010" data in
  readFile_loop (tail dataByLine) 0 st.

(** ** Slides *)

(** [new Set(tags)] followed by [Array.from(tagSet.values())]: the values
    are added one by one, a value already present is not added again, and
    the set lists its values in insertion order.  [seen] is the set so far. *)
Fixpoint setValues (seen tags : list Tag) : list Tag :=
  match tags with
  | [] => seen
  | tag :: rest =>
      if includes seen tag then setValues seen rest
      else setValues (seen ++ [tag]) rest
  end.

(** [createVerticalSlide] *)
Definition createVerticalSlide (photo1 photo2 : Photo.t) : Slide.t :=
  let tags := [] ++ Photo.tags photo1 in
  let tags := tags ++ Photo.tags photo2 in
  Slide.mk [photo1; photo2] (setValues [] tags).

(** [createHorizontalSlide] *)
Definition createHorizontalSlide (photo : Photo.t) : Slide.t :=
  Slide.mk [photo] (Photo.tags photo).

(** ** Ranking *)

(** [calculateTagScore]: a tag without an entry adds nothing. *)
Definition calculateTagScore (allTags : gmap Tag TagEntry.t) (photo : Photo.t) : Z :=
  foldl (fun score tag =>
           match allTags !! tag with
           | Some tagEntry => score + Z.of_nat (length (TagEntry.photoIds tagEntry))
           | None => score
           end)
        0 (Photo.tags photo).

Definition setTagScore (photo : Photo.t) (tagScore : Z) : Photo.t :=
  Photo.mk (Photo.id photo) (Photo.orientation photo) (Photo.tags photo) tagScore.

(** The comparator passed to [photos.sort] in [solve].  It writes the field
    [tagScore] of both photos before it compares them, so it returns the
    two photos as it leaves them together with the number. *)
Definition comparePhotos (allTags : gmap Tag TagEntry.t) (photo1 photo2 : Photo.t)
  : Photo.t * Photo.t * Z :=
  let photo1 := setTagScore photo1 (calculateTagScore allTags photo1) in
  let photo2 := setTagScore photo2 (calculateTagScore allTags photo2) in
  (photo1, photo2, Photo.tagScore photo2 - Photo.tagScore photo1).

(** [Array.prototype.sort] with a comparator that may write to the
    elements it is given.  The language fixes the result for a consistent
    comparator: the elements in comparator order, equal ones in their
    original order.  The model is insertion from the right end: an element
    goes in front of the first element it does not have to follow. *)
Section Sort.
Context {A : Type} (comparator : A -> A -> A * A * Z).

Fixpoint sortInsert (x : A) (sorted : list A) : list A :=
  match sorted with
  | [] => [x]
  | y :: rest =>
      let '(x', y', c) := comparator x y in
      if decide (c <= 0) then x' :: y' :: rest
      else y' :: sortInsert x' rest
  end.

Fixpoint sort (l : list A) : list A :=
  match l with
  | [] => []
  | x :: l' => sortInsert x (sort l')
  end.
End Sort.

(** ** Solver *)

(** The loop that pairs the vertical photos; [i] is the loop index.  [None]
    stands for reading a photo that is not there, and for running out of
    [fuel]. *)
Fixpoint verticalLoop (fuel : nat) (verticalPhotos : list Photo.t) (i : nat)
    (verticalSlides : list Slide.t) : option (list Slide.t) :=
  match fuel with
  | O => None
  | S fuel' =>
      if decide (i < length verticalPhotos)%nat then
        if decide (length verticalPhotos <= i + 1)%nat then Some verticalSlides
        else
          match verticalPhotos !! i, verticalPhotos !! (i + 1)%nat with
          | Some photo1, Some photo2 =>
              verticalLoop fuel' verticalPhotos (i + 2)
                (verticalSlides ++ [createVerticalSlide photo1 photo2])
          | _, _ => None
          end
      else Some verticalSlides
  end.

(** The photo ranking pass at the start of [solve]. *)
Definition rankPhotos (st : State) : list Photo.t :=
  sort (comparePhotos (allTags st)) (photos st).

Definition isHorizontal (photo : Photo.t) : Prop := Photo.orientation photo = "H".
Definition isVertical (photo : Photo.t) : Prop := Photo.orientation photo = "V".

#[global] Instance isHorizontal_dec photo : Decision (isHorizontal photo).
Proof. unfold isHorizontal. apply _. Defined.
#[global] Instance isVertical_dec photo : Decision (isVertical photo).
Proof. unfold isVertical. apply _. Defined.

(** The horizontal slides, one [push] per photo. *)
Definition buildHorizontalSlides (horizontalPhotos : list Photo.t) : list Slide.t :=
  foldl (fun horizontalSlides photo =>
           horizontalSlides ++ [createHorizontalSlide photo])
        [] horizontalPhotos.

(** The vertical slides. *)
Definition buildVerticalSlides (verticalPhotos : list Photo.t)
  : option (list Slide.t) :=
  verticalLoop (S (length verticalPhotos)) verticalPhotos 0 [].

(** [solve]: the state with [photos] sorted, and the slides. *)
Definition solve (st : State) : option (State * list Slide.t) :=
  let photos := rankPhotos st in
  let horizontalPhotos := filter isHorizontal photos in
  let verticalPhotos := filter isVertical photos in
  let horizontalSlides := buildHorizontalSlides horizontalPhotos in
  verticalSlides ← buildVerticalSlides verticalPhotos;
  let slides := horizontalSlides ++ verticalSlides in
  Some (mkState photos (allTags st), slides).

(** The body of [files.forEach] for one file, on the text of the file:
    the slideshow with its score. *)
Definition processFile (data : string) : option Slideshow.t :=
  st ← readFile data reset;
  '(_, slides) ← solve st;
  score ← getScore (Slideshow.mk slides 0);
  Some (Slideshow.mk slides score).

(** ** Notions of the specification

    The counts, sums and predicates in which the properties are stated,
    and the loop-free forms of the loops above. *)

(** Number of tags of [a] that occur in [b], and that do not. *)
Definition commonCount (a b : list Tag) : Z :=
  Z.of_nat (length (filter (fun t => t ∈ b) a)).
Definition onlyCount (a b : list Tag) : Z :=
  Z.of_nat (length (filter (fun t => t ∉ b) a)).

(** Sum of the adjacency score over the consecutive pairs. *)
Fixpoint totalScore (slides : list Slide.t) : Z :=
  match slides with
  | s1 :: (s2 :: _) as rest => compareSlides s1 s2 + totalScore rest
  | _ => 0
  end.

(** The photo ids registered under a tag; none without an entry. *)
Definition photoIdsOf (allTags : gmap Tag TagEntry.t) (tag : Tag) : list nat :=
  match allTags !! tag with
  | Some tagEntry => TagEntry.photoIds tagEntry
  | None => []
  end.

(** Popularity of a tag: the number of photo ids registered under it. *)
Definition popularity (allTags : gmap Tag TagEntry.t) (tag : Tag) : Z :=
  Z.of_nat (length (photoIdsOf allTags tag)).

(** Sum of a list of integers. *)
Definition sumZ (l : list Z) : Z := foldr Z.add 0 l.

(** What [comparePhotos] keeps of a photo: everything but [tagScore]. *)
Definition identity (photo : Photo.t) : nat * string * list Tag :=
  (Photo.id photo, Photo.orientation photo, Photo.tags photo).

(** Comparator order on a list: no element is followed by one with a
    strictly larger key. *)
Definition descending {A} (key : A -> Z) (l : list A) : Prop :=
  forall i j x y, (i < j)%nat -> l !! i = Some x -> l !! j = Some y -> key y <= key x.

(** The elements with key [k], in the order of the list. *)
Definition withKey {A} (key : A -> Z) (k : Z) (l : list A) : list A :=
  filter (fun x => key x = k) l.

(** Insertion sort by decreasing key without writes; an element goes in
    front of the first element whose key is not larger. *)
Section PureSort.
Context {A : Type} (key : A -> Z).

Fixpoint insertDesc (x : A) (sorted : list A) : list A :=
  match sorted with
  | [] => [x]
  | y :: rest =>
      if decide (key y - key x <= 0) then x :: y :: rest
      else y :: insertDesc x rest
  end.

Fixpoint sortDesc (l : list A) : list A :=
  match l with
  | [] => []
  | x :: l' => insertDesc x (sortDesc l')
  end.

(** A comparator that writes to both arguments with [touch] and compares
    the keys. *)
Definition touching (touch : A -> A) (x y : A) : A * A * Z :=
  (touch x, touch y, key y - key x).
End PureSort.

(** The ids of the photos of all slides, slide by slide. *)
Definition slideIds (slides : list Slide.t) : list nat :=
  slides ≫= (fun slide => Photo.id <$> Slide.photos slide).

(** Number of slides that show the photo with a given id. *)
Definition slidesShowing (photoId : nat) (slides : list Slide.t) : nat :=
  length (filter (fun slide => photoId ∈ Photo.id <$> Slide.photos slide) slides).

(** The ids registered under [tag] by a list of photos read in order: the
    id of a photo once for each occurrence of [tag] in its tag list. *)
Definition registrations (tag : Tag) (photos : list Photo.t) : list nat :=
  photos ≫= (fun photo =>
    (fun _ => Photo.id photo) <$> filter (fun t => t = tag) (Photo.tags photo)).

(** The photos that carry a tag. *)
Definition carrying (tag : Tag) (photos : list Photo.t) : list Photo.t :=
  filter (fun photo => tag ∈ Photo.tags photo) photos.

(** The tag index is exact: no stored tag list has a duplicate, no id is
    registered twice under a tag, and the number of ids under a tag is
    the number of photos that carry it. *)
Definition tagIndexExact (st : State) : Prop :=
  Forall (fun photo => NoDup (Photo.tags photo)) (photos st) /\
  (forall tag, NoDup (photoIdsOf (allTags st) tag)) /\
  (forall tag, length (photoIdsOf (allTags st) tag) = length (carrying tag (photos st))).

(** The lines of a file that [readFile] hands to [readPhoto]. *)
Definition photoLines (data : string) : list string :=
  filter (fun line => line <> "") (tail (split "010" data)).

(** The fields of a line, as [readPhoto] splits it. *)
Definition fields (line : string) : list string := split " " (trim line).

(** A line that cannot be parsed into photo fields: the tag count is
    missing or not a number, or fewer tags follow than it announces. *)
Definition malformed (line : string) : Prop :=
  parseFloat (fields line !! 1%nat) = NaN \/
  exists n, tripCount (parseFloat (fields line !! 1%nat)) = Some n /\
            (length (fields line) < n + 2)%nat.

(** Every photo of the catalog is in exactly one slide, but for one vertical
    photo when their number is odd. *)
Definition partitioned (catalog : list Photo.t) (slides : list Slide.t) : Prop :=
  let dropped :=
    filter (fun photo => slidesShowing (Photo.id photo) slides = 0%nat) catalog in
  Forall (fun photo => (slidesShowing (Photo.id photo) slides <= 1)%nat) catalog /\
  Forall isVertical dropped /\
  length dropped = (length (filter isVertical catalog) mod 2)%nat.

(** The vertical slides, two photos at a time from the front; a last
    photo without a partner gives no slide. *)
Fixpoint pairSlides (verticalPhotos : list Photo.t) : list Slide.t :=
  match verticalPhotos with
  | photo1 :: photo2 :: rest => createVerticalSlide photo1 photo2 :: pairSlides rest
  | _ => []
  end.

(** The write that [comparePhotos] makes to a photo. *)
Definition scored (allTags : gmap Tag TagEntry.t) (photo : Photo.t) : Photo.t :=
  setTagScore photo (calculateTagScore allTags photo).

(** The photos of a list of lines, numbered from [nextIndex]. *)
Fixpoint readPhotos (lines : list string) (nextIndex : nat) : option (list Photo.t) :=
  match lines with
  | [] => Some []
  | line :: rest =>
      photo ← readPhoto (trim line) nextIndex;
      photos ← readPhotos rest (S nextIndex);
      Some (photo :: photos)
  end.

(** The tag index after the registration of a list of photos. *)
Definition registerAll (allTags : gmap Tag TagEntry.t) (photos : list Photo.t)
  : gmap Tag TagEntry.t :=
  foldl (fun allTags photo => foldl (registerTag photo) allTags (Photo.tags photo))
        allTags photos.

(** The tag count of a line is one for which [tripCount] is defined. *)
Definition countModelled (line : string) : Prop :=
  is_Some (tripCount (parseFloat (fields line !! 1%nat))).

(** ** Writing the output *)

(** The string of a Number that is a non-negative integer below [10 ^ 21]:
    its decimal digits. *)
Definition numberToString (n : nat) : string :=
  NilEmpty.string_of_uint (Nat.to_uint n).

(** The line feed, as a string. *)
Definition LF : string := String "010" "".

(** The callback of [slideshow.slides.forEach] in [createOutput], on the
    text written so far: one [write] for each photo, then one for the end
    of the line. *)
Definition writeSlide (written : string) (s : Slide.t) : string :=
  let written :=
    foldl (fun written photo => written +:+ (numberToString (Photo.id photo) +:+ " "))
          written (Slide.photos s) in
  written +:+ LF.

(** What [createOutput] leaves behind: the path of the stream it opens and
    the text it writes to it. *)
Record Output := mkOutput { path : string; written : string }.

(** [createOutput]; the message on the console is left out. *)
Definition createOutput (slideshow : Slideshow.t) (filename : string) : Output :=
  let path := "output/" +:+ filename +:+ ".output" in
  let written := "" +:+ (numberToString (length (Slideshow.slides slideshow)) +:+ LF) in
  let written := foldl writeSlide written (Slideshow.slides slideshow) in
  mkOutput path written.

(** ** The main loop *)

(** [String.prototype.lastIndexOf] for a one-character search string: the
    index of the last occurrence, [-1] without one.  [i] is the index of the
    first character of [s], [found] the last occurrence before it. *)
Fixpoint lastIndexOf_scan (c : ascii) (s : string) (i found : Z) : Z :=
  match s with
  | EmptyString => found
  | String a s' => lastIndexOf_scan c s' (i + 1) (if decide (a = c) then i else found)
  end.

Definition lastIndexOf (s : string) (c : ascii) : Z := lastIndexOf_scan c s 0 (-1).

(** The characters of [s] from position [from], [count] of them at most. *)
Fixpoint slice (from count : nat) (s : string) : string :=
  match from, count, s with
  | _, _, EmptyString => EmptyString
  | S from', _, String _ s' => slice from' count s'
  | O, O, _ => EmptyString
  | O, S count', String a s' => String a (slice O count' s')
  end.

(** [String.prototype.substring]: both positions are brought into the
    string, and swapped when the first is past the second. *)
Definition substring (s : string) (indexStart indexEnd : Z) : string :=
  let len := Z.of_nat (String.length s) in
  let finalStart := Z.min (Z.max indexStart 0) len in
  let finalEnd := Z.min (Z.max indexEnd 0) len in
  let from := Z.min finalStart finalEnd in
  let to := Z.max finalStart finalEnd in
  slice (Z.to_nat from) (Z.to_nat (to - from)) s.

(** The name that the main loop passes to [createOutput] for the file [f]. *)
Definition outputName (f : string) : string :=
  substring f (lastIndexOf f "/" + 1) (lastIndexOf f ".").

(** The body of [files.forEach] for the file [f] with the text [data], up to
    the output. *)
Definition processFileOutput (f data : string) : option Output :=
  slideshow ← processFile data;
  Some (createOutput slideshow (outputName f)).

(** ** Notions for the further properties *)

(** The character [c] occurs in [s]. *)
Fixpoint hasChar (c : ascii) (s : string) : bool :=
  match s with
  | EmptyString => false
  | String a s' => if decide (a = c) then true else hasChar c s'
  end.

(** Reads back a string of decimal digits. *)
Definition readNumber (s : string) : option nat :=
  Nat.of_uint <$> NilEmpty.uint_of_string s.

(** Reads back the text of an output: the announced number of slides, and
    for each line the numbers on it.  The text after the last line feed,
    and on each line the text after the last space, is dropped. *)
Definition parseOutput (written : string) : option (nat * list (list nat)) :=
  match split "010" written with
  | count :: rest =>
      n ← readNumber count;
      slides ← mapM (fun line => mapM readNumber (removelast (split " " line)))
                    (removelast rest);
      Some (n, slides)
  | [] => None
  end.

(** The score between two neighbouring blocks of slides: of the last slide
    of the first with the first slide of the second. *)
Definition bridgeScore (slides1 slides2 : list Slide.t) : Z :=
  match last slides1, head slides2 with
  | Some slide1, Some slide2 => compareSlides slide1 slide2
  | _, _ => 0
  end.

(** Each entry of the tag index is filed under its own tag and holds at
    least one photo id. *)
Definition entriesWellFormed (allTags : gmap Tag TagEntry.t) : Prop :=
  forall (tag : Tag) (tagEntry : TagEntry.t),
    allTags !! tag = Some tagEntry ->
    TagEntry.tag tagEntry = tag /\ TagEntry.photoIds tagEntry <> [].

(** A list of numbers in which no number is followed by a smaller one. *)
Definition ascending (l : list nat) : Prop :=
  forall i j a b, (i < j)%nat -> l !! i = Some a -> l !! j = Some b -> (a <= b)%nat.

(** The line of a slide in the output, without its line feed: each photo id
    followed by a space. *)
Definition slideLine (s : Slide.t) : string :=
  foldr (fun photo rest => numberToString (Photo.id photo) +:+ " " +:+ rest)
        "" (Slide.photos s).

(** The lines of the slides in the output, each with its line feed. *)
Definition slideLines (slides : list Slide.t) : string :=
  foldr (fun s rest => slideLine s +:+ LF +:+ rest) "" slides.

(** The text of the tags on a line: each tag after a space. *)
Definition tagFields (tags : list string) : string :=
  foldr (fun tag rest => " " +:+ tag +:+ rest) "" tags.

(** A white space character occurs in [s]. *)
Fixpoint hasWhiteSpace (s : string) : bool :=
  match s with
  | EmptyString => false
  | String a s' => isWhiteSpace a || hasWhiteSpace s'
  end.

(** The line of a photo in the input format, from its orientation and its
    tags. *)
Definition photoLine (entry : string * list string) : string :=
  entry.1 +:+ " " +:+ numberToString (length entry.2) +:+ tagFields entry.2.

(** The text of an input file: a first line, then the line of each photo,
    each line with its line feed. *)
Definition fileText (first : string) (entries : list (string * list string)) : string :=
  first +:+ LF +:+ foldr (fun entry rest => photoLine entry +:+ LF +:+ rest) "" entries.

(** The catalog that the format describes, numbered from [nextIndex]. *)
Fixpoint catalogOf (nextIndex : nat) (entries : list (string * list string))
  : list Photo.t :=
  match entries with
  | [] => []
  | entry :: rest =>
      Photo.mk nextIndex entry.1 (Some <$> entry.2) 0 :: catalogOf (S nextIndex) rest
  end.

(** A word: not empty and without white space. *)
Definition isWord (s : string) : Prop := s <> "" /\ hasWhiteSpace s = false.

(** An orientation and tags that the format can carry. *)
Definition wellFormedEntry (entry : string * list string) : Prop :=
  isWord entry.1 /\ Forall isWord entry.2 /\ Z.of_nat (length entry.2) < 2 ^ 32.

(** * Properties *)

(** Settles a decidable closed proposition by evaluation. *)
Ltac by_compute := apply (bool_decide_unpack _); vm_compute; exact I.

(** ** The scorer *)

Lemma includes_elem_of l t : includes l t = true <-> t ∈ l.
Proof.
  induction l as [|x l IH]; simpl.
  - split; [discriminate | intros H; inversion H].
  - destruct (decide (x = t)) as [->|Hne].
    + split; [intros _; left | reflexivity].
    + rewrite IH. split; [intros H; by right |].
      intros H. inversion H; subst; [congruence | assumption].
Qed.

Lemma includes_false l t : includes l t = false <-> t ∉ l.
Proof.
  rewrite <- includes_elem_of. destruct (includes l t); split; congruence.
Qed.

(** A counting loop counts the elements that pass its test. *)
Lemma count_loop (test : Tag -> bool) (P : Tag -> Prop) `{!forall t, Decision (P t)} l n :
  (forall t, test t = true <-> P t) ->
  foldl (fun n tag => if test tag then n + 1 else n) n l
  = n + Z.of_nat (length (filter P l)).
Proof.
  intros Htest. revert n.
  induction l as [|x l IH]; intros n; simpl; [lia|].
  rewrite IH, filter_cons. specialize (Htest x).
  destruct (test x), (decide (P x)); simpl; try lia.
  - exfalso. tauto.
  - exfalso. assert (false = true) by tauto. discriminate.
Qed.

Lemma commonCount_loop a b :
  foldl (fun n tag => if includes b tag then n + 1 else n) 0 a = commonCount a b.
Proof.
  unfold commonCount.
  rewrite (count_loop (includes b) (fun t => t ∈ b)); [lia|].
  intros t. apply includes_elem_of.
Qed.

Lemma onlyCount_loop a b :
  foldl (fun n tag => if negb (includes b tag) then n + 1 else n) 0 a = onlyCount a b.
Proof.
  unfold onlyCount.
  rewrite (count_loop (fun t => negb (includes b t)) (fun t => t ∉ b)); [lia|].
  intros t. rewrite negb_true_iff. apply includes_false.
Qed.

Lemma commonCount_bounds a b : 0 <= commonCount a b <= Z.of_nat (length a).
Proof. unfold commonCount. pose proof (length_filter (fun t => t ∈ b) a). lia. Qed.

Lemma onlyCount_bounds a b : 0 <= onlyCount a b <= Z.of_nat (length a).
Proof. unfold onlyCount. pose proof (length_filter (fun t => t ∉ b) a). lia. Qed.

(** Two duplicate-free lists have as many elements of the one in the
    other as the other way round. *)
Lemma commonCount_comm a b : NoDup a -> NoDup b -> commonCount a b = commonCount b a.
Proof.
  intros Ha Hb. unfold commonCount. f_equal.
  apply Permutation_length, NoDup_Permutation.
  - by apply NoDup_filter.
  - by apply NoDup_filter.
  - intros t. rewrite !list_elem_of_filter. tauto.
Qed.

(** The three loops of [compareSlides] are the three counts. *)
Lemma compareSlides_counts slide1 slide2 :
  compareSlides slide1 slide2 =
  Z.min (Z.min (commonCount (Slide.tags slide1) (Slide.tags slide2))
               (onlyCount (Slide.tags slide1) (Slide.tags slide2)))
        (onlyCount (Slide.tags slide2) (Slide.tags slide1)).
Proof.
  unfold compareSlides.
  by rewrite commonCount_loop, !onlyCount_loop.
Qed.

(** C1: for all slides A and B, [compareSlides A B] is the minimum of the
    number of tags of A that occur among the tags of B, the number of tags
    of A that do not, and the number of tags of B that do not occur among
    the tags of A. *)
Theorem compareSlides_min (slideA slideB : Slide.t) :
  compareSlides slideA slideB =
  Z.min (Z.min (commonCount (Slide.tags slideA) (Slide.tags slideB))
               (onlyCount (Slide.tags slideA) (Slide.tags slideB)))
        (onlyCount (Slide.tags slideB) (Slide.tags slideA)).
Proof. apply compareSlides_counts. Qed.

Lemma compareSlides_nonneg slide1 slide2 : 0 <= compareSlides slide1 slide2.
Proof.
  rewrite compareSlides_counts.
  pose proof (commonCount_bounds (Slide.tags slide1) (Slide.tags slide2)).
  pose proof (onlyCount_bounds (Slide.tags slide1) (Slide.tags slide2)).
  pose proof (onlyCount_bounds (Slide.tags slide2) (Slide.tags slide1)).
  lia.
Qed.

Lemma totalScore_nonneg slides : 0 <= totalScore slides.
Proof.
  induction slides as [|s1 [|s2 rest] IH]; simpl; try lia.
  pose proof (compareSlides_nonneg s1 s2). simpl in IH. lia.
Qed.

(** The loop of [getScore] started at index [i] adds the scores of the
    consecutive pairs from [i] on. *)
Lemma getScore_loop_total slides fuel i score :
  (i <= length slides)%nat -> (length slides - i < fuel)%nat ->
  getScore_loop fuel slides i score = Some (score + totalScore (drop i slides)).
Proof.
  revert i score.
  induction fuel as [|fuel IH]; intros i score Hi Hfuel; [lia|].
  simpl. case_bool_decide as Hlt.
  - case_bool_decide as Hlast.
    + assert (Hdrop : exists s, drop i slides = [s]).
      { destruct (lookup_lt_is_Some_2 slides i) as [s Hs]; [lia|].
        exists s. rewrite (drop_S _ _ _ Hs), drop_ge by lia. done. }
      destruct Hdrop as [s ->]. simpl. f_equal. lia.
    + destruct (lookup_lt_is_Some_2 slides i) as [s1 Hs1]; [lia|].
      destruct (lookup_lt_is_Some_2 slides (i + 1)) as [s2 Hs2]; [lia|].
      rewrite Hs1, Hs2, IH by lia.
      rewrite (drop_S _ _ _ Hs1).
      replace (S i) with (i + 1)%nat by lia.
      rewrite (drop_S _ _ _ Hs2). simpl. f_equal. lia.
  - rewrite drop_ge by lia. simpl. f_equal. lia.
Qed.

Lemma getScore_total slideshow :
  getScore slideshow = Some (totalScore (Slideshow.slides slideshow)).
Proof.
  unfold getScore. rewrite getScore_loop_total by lia.
  by rewrite drop_0.
Qed.

(** C2: for every slideshow, [getScore] returns the sum of the adjacency
    score over the pairs of consecutive slides; on no slide and on a single
    slide it returns 0. *)
Theorem getScore_adjacent_sum :
  (forall slideshow : Slideshow.t,
      getScore slideshow = Some (totalScore (Slideshow.slides slideshow))) /\
  (forall score : Z, getScore (Slideshow.mk [] score) = Some 0) /\
  (forall (slide : Slide.t) (score : Z),
      getScore (Slideshow.mk [slide] score) = Some 0) /\
  (forall (slide1 slide2 : Slide.t) (rest : list Slide.t),
      totalScore (slide1 :: slide2 :: rest)
      = compareSlides slide1 slide2 + totalScore (slide2 :: rest)).
Proof.
  split; [apply getScore_total|].
  split; [|split]; intros; reflexivity.
Qed.

(** C9: for all slides A and B the adjacency score is at most the smaller
    of the two numbers of tags; it is never negative, and [getScore]
    returns a total that is never negative. *)
Theorem compareSlides_bound_getScore_nonneg :
  (forall slideA slideB : Slide.t,
      compareSlides slideA slideB
      <= Z.min (Z.of_nat (length (Slide.tags slideA)))
               (Z.of_nat (length (Slide.tags slideB)))) /\
  (forall slideA slideB : Slide.t, 0 <= compareSlides slideA slideB) /\
  (forall slideshow : Slideshow.t,
      exists total, getScore slideshow = Some total /\ 0 <= total).
Proof.
  split; [|split].
  - intros slideA slideB. rewrite compareSlides_counts.
    pose proof (commonCount_bounds (Slide.tags slideA) (Slide.tags slideB)).
    pose proof (onlyCount_bounds (Slide.tags slideB) (Slide.tags slideA)).
    lia.
  - apply compareSlides_nonneg.
  - intros slideshow. eexists. split; [apply getScore_total|].
    apply totalScore_nonneg.
Qed.

(** C10: for slides A and B whose tag lists have no duplicates,
    [compareSlides A B = compareSlides B A]. *)
Theorem compareSlides_comm (slideA slideB : Slide.t) :
  NoDup (Slide.tags slideA) -> NoDup (Slide.tags slideB) ->
  compareSlides slideA slideB = compareSlides slideB slideA.
Proof.
  intros HA HB. rewrite !compareSlides_counts.
  rewrite (commonCount_comm _ _ HA HB). lia.
Qed.

Lemma compareSlides_comm_witness :
  let slideA := Slide.mk [] [Some "a"; Some "b"; Some "c"] in
  let slideB := Slide.mk [] [Some "c"; Some "d"; Some "a"; None] in
  NoDup (Slide.tags slideA) /\ NoDup (Slide.tags slideB) /\
  compareSlides slideA slideB = compareSlides slideB slideA /\
  compareSlides slideA slideB = 1.
Proof.
  assert (HA : NoDup [Some "a"; Some "b"; Some "c"]) by by_compute.
  assert (HB : NoDup [Some "c"; Some "d"; Some "a"; @None string]) by by_compute.
  split; [exact HA|]. split; [exact HB|]. split.
  - exact (compareSlides_comm (Slide.mk [] _) (Slide.mk [] _) HA HB).
  - reflexivity.
Defined.

(** ** Building the slides *)

(** Induction on a list two elements at a time. *)
Lemma pair_induction {A} (P : list A -> Prop) :
  P [] -> (forall x, P [x]) -> (forall x y l, P l -> P (x :: y :: l)) ->
  forall l, P l.
Proof.
  intros Hnil Hone Hstep l.
  assert (H : P l /\ forall x, P (x :: l)); [|tauto].
  induction l as [|y l [IH1 IH2]]; split; auto.
Qed.

Lemma setValues_elem_of seen tags tag :
  tag ∈ setValues seen tags <-> tag ∈ seen \/ tag ∈ tags.
Proof.
  revert seen. induction tags as [|t tags IH]; intros seen; simpl.
  - rewrite elem_of_nil. tauto.
  - destruct (includes seen t) eqn:Hseen; rewrite IH, elem_of_cons.
    + apply includes_elem_of in Hseen.
      split; [tauto|]. intros [?|[->|?]]; auto.
    + rewrite elem_of_app, list_elem_of_singleton. tauto.
Qed.

Lemma setValues_NoDup seen tags : NoDup seen -> NoDup (setValues seen tags).
Proof.
  revert seen. induction tags as [|t tags IH]; intros seen Hseen; simpl; [done|].
  destruct (includes seen t) eqn:Ht; apply IH; [done|].
  apply includes_false in Ht.
  apply NoDup_app. split; [done|]. split; [|apply NoDup_singleton].
  intros x Hx ->%list_elem_of_singleton. done.
Qed.

(** A vertical slide shows its two photos and carries each tag of either
    photo once. *)
Lemma createVerticalSlide_spec photo1 photo2 :
  Slide.photos (createVerticalSlide photo1 photo2) = [photo1; photo2] /\
  NoDup (Slide.tags (createVerticalSlide photo1 photo2)) /\
  forall tag, tag ∈ Slide.tags (createVerticalSlide photo1 photo2) <->
              tag ∈ Photo.tags photo1 \/ tag ∈ Photo.tags photo2.
Proof.
  split; [done|]. split; simpl.
  - apply setValues_NoDup, NoDup_nil_2.
  - intros tag. rewrite setValues_elem_of, elem_of_app, elem_of_nil. tauto.
Qed.

Lemma buildHorizontalSlides_fmap horizontalPhotos :
  buildHorizontalSlides horizontalPhotos = createHorizontalSlide <$> horizontalPhotos.
Proof.
  unfold buildHorizontalSlides.
  assert (H : forall acc,
             foldl (fun slides photo => slides ++ [createHorizontalSlide photo])
                   acc horizontalPhotos
             = acc ++ (createHorizontalSlide <$> horizontalPhotos)); [|apply (H [])].
  induction horizontalPhotos as [|p l IH]; intros acc; simpl.
  - by rewrite app_nil_r.
  - by rewrite IH, <- app_assoc.
Qed.

(** The pairing loop started at index [i] appends the pairs of the photos
    from [i] on. *)
Lemma verticalLoop_pairSlides verticalPhotos fuel i verticalSlides :
  (i <= length verticalPhotos)%nat -> (length verticalPhotos - i < fuel)%nat ->
  verticalLoop fuel verticalPhotos i verticalSlides
  = Some (verticalSlides ++ pairSlides (drop i verticalPhotos)).
Proof.
  revert i verticalSlides.
  induction fuel as [|fuel IH]; intros i acc Hi Hfuel; [lia|].
  simpl. destruct (decide (i < length verticalPhotos)%nat) as [Hlt|Hge].
  - destruct (lookup_lt_is_Some_2 verticalPhotos i) as [p1 Hp1]; [lia|].
    rewrite (drop_S _ _ _ Hp1).
    destruct (decide (length verticalPhotos <= i + 1)%nat) as [Hlast|Hmore].
    + rewrite drop_ge by lia. simpl. by rewrite app_nil_r.
    + destruct (lookup_lt_is_Some_2 verticalPhotos (i + 1)) as [p2 Hp2]; [lia|].
      rewrite Hp1, Hp2, IH by lia.
      replace (S i) with (i + 1)%nat by lia.
      rewrite (drop_S _ _ _ Hp2). simpl.
      replace (S (i + 1)) with (i + 2)%nat by lia.
      by rewrite <- app_assoc.
  - rewrite drop_ge by lia. simpl. by rewrite app_nil_r.
Qed.

Lemma buildVerticalSlides_pairSlides verticalPhotos :
  buildVerticalSlides verticalPhotos = Some (pairSlides verticalPhotos).
Proof.
  unfold buildVerticalSlides.
  rewrite verticalLoop_pairSlides by lia. by rewrite drop_0.
Qed.

Lemma pairSlides_length l : length (pairSlides l) = (length l / 2)%nat.
Proof.
  induction l as [| x | x y l IH] using pair_induction; try reflexivity.
  cbn [pairSlides length]. rewrite IH.
  change (S (S (length l))) with (1 * 2 + length l)%nat.
  rewrite Nat.div_add_l by lia. lia.
Qed.

Lemma pairSlides_lookup l k :
  (k < length l / 2)%nat ->
  exists photo1 photo2,
    l !! (2 * k)%nat = Some photo1 /\ l !! (2 * k + 1)%nat = Some photo2 /\
    pairSlides l !! k = Some (createVerticalSlide photo1 photo2).
Proof.
  revert k. induction l as [| x | x y l IH] using pair_induction; intros k Hk.
  - simpl in Hk. lia.
  - simpl in Hk. lia.
  - destruct k as [|k].
    + exists x, y. done.
    + assert (Hk' : (k < length l / 2)%nat).
      { cbn [length] in Hk.
        change (S (S (length l))) with (1 * 2 + length l)%nat in Hk.
        rewrite Nat.div_add_l in Hk by lia. lia. }
      destruct (IH k Hk') as (p1 & p2 & H1 & H2 & H3).
      exists p1, p2. replace (2 * S k)%nat with (S (S (2 * k))) by lia.
      done.
Qed.

Lemma pairSlides_photos l :
  pairSlides l ≫= Slide.photos = take (2 * (length l / 2)) l.
Proof.
  induction l as [| x | x y l IH] using pair_induction; try reflexivity.
  cbn [pairSlides length]. rewrite bind_cons, IH. cbn [createVerticalSlide Slide.photos].
  change (S (S (length l))) with (1 * 2 + length l)%nat.
  rewrite Nat.div_add_l by lia.
  replace (2 * (1 + length l / 2))%nat with (S (S (2 * (length l / 2)))) by lia.
  done.
Qed.

Lemma slideIds_photos slides : slideIds slides = Photo.id <$> (slides ≫= Slide.photos).
Proof.
  unfold slideIds. induction slides as [|s l IH]; [done|].
  by rewrite !bind_cons, fmap_app, IH.
Qed.

Lemma slideIds_app slides1 slides2 :
  slideIds (slides1 ++ slides2) = slideIds slides1 ++ slideIds slides2.
Proof. unfold slideIds. apply bind_app. Qed.

Lemma slideIds_horizontal l :
  slideIds (createHorizontalSlide <$> l) = Photo.id <$> l.
Proof.
  unfold slideIds. induction l as [|p l IH]; [done|].
  rewrite fmap_cons, bind_cons, IH. done.
Qed.

Lemma slideIds_vertical l :
  slideIds (pairSlides l) = Photo.id <$> take (2 * (length l / 2)) l.
Proof. by rewrite slideIds_photos, pairSlides_photos. Qed.

(** A photo is shown by some slide exactly when its id is among the ids
    of the slides. *)
Lemma slidesShowing_zero photoId slides :
  slidesShowing photoId slides = 0%nat <-> photoId ∉ slideIds slides.
Proof.
  unfold slidesShowing, slideIds.
  induction slides as [|s l IH]; simpl.
  - rewrite elem_of_nil. tauto.
  - rewrite filter_cons, elem_of_app.
    destruct (decide (photoId ∈ Photo.id <$> Slide.photos s)); simpl.
    + split; [lia | tauto].
    + rewrite IH. tauto.
Qed.

Lemma slidesShowing_le_1 photoId slides :
  NoDup (slideIds slides) -> (slidesShowing photoId slides <= 1)%nat.
Proof.
  unfold slidesShowing. intros Hnd.
  induction slides as [|s l IH]; simpl; [lia|].
  change (slideIds (s :: l)) with ((Photo.id <$> Slide.photos s) ++ slideIds l) in Hnd.
  apply NoDup_app in Hnd as (_ & Hdisj & Hl).
  rewrite filter_cons.
  destruct (decide (photoId ∈ Photo.id <$> Slide.photos s)) as [Hin|Hnin]; simpl.
  - apply Hdisj in Hin. apply slidesShowing_zero in Hin.
    unfold slidesShowing in Hin. lia.
  - by apply IH.
Qed.

Lemma same_id_same_photo (l : list Photo.t) p q :
  NoDup (Photo.id <$> l) -> p ∈ l -> q ∈ l -> Photo.id p = Photo.id q -> p = q.
Proof.
  intros Hnd [i Hi]%list_elem_of_lookup [j Hj]%list_elem_of_lookup Hid.
  assert (i = j) as ->.
  { apply (NoDup_lookup _ i j (Photo.id p) Hnd).
    - by rewrite list_lookup_fmap, Hi.
    - by rewrite list_lookup_fmap, Hj, Hid. }
  congruence.
Qed.

Lemma NoDup_ids_filter (P : Photo.t -> Prop) `{!forall p, Decision (P p)} l :
  NoDup (Photo.id <$> l) -> NoDup (Photo.id <$> filter P l).
Proof.
  intros Hnd. eapply sublist_NoDup; [exact Hnd|].
  apply fmap_sublist, sublist_filter.
Qed.

(** The id of a photo at position [n] or later is not among the ids of the
    first [n] photos. *)
Lemma id_not_in_take (l : list Photo.t) n i p :
  NoDup (Photo.id <$> l) -> (n <= i)%nat -> l !! i = Some p ->
  Photo.id p ∉ Photo.id <$> take n l.
Proof.
  intros Hnd Hle Hp [j Hj]%list_elem_of_lookup.
  rewrite list_lookup_fmap in Hj.
  destruct (take n l !! j) as [q|] eqn:Hq; [|done].
  apply lookup_take_Some in Hq as [Hq Hlt]. simpl in Hj.
  assert (j = i); [|lia].
  apply (NoDup_lookup _ j i (Photo.id p) Hnd).
  - rewrite list_lookup_fmap, Hq. done.
  - by rewrite list_lookup_fmap, Hp.
Qed.

Lemma odd_half n : Nat.Odd n -> (2 * (n / 2) = n - 1)%nat.
Proof.
  intros [k ->]. replace (2 * k + 1)%nat with (1 + k * 2)%nat by lia.
  rewrite Nat.div_add by lia. simpl. lia.
Qed.

(** C3: for every ranked photo sequence the slide builder returns, without
    error, one slide for each two vertical photos in ranked order: slide [k]
    shows the vertical photos at positions [2k] and [2k+1], and its tags are
    the tags of the two photos, each once.  The slides use up the vertical
    photos from the front; when their number is odd the last one is left
    over, and (photo ids being distinct) no slide shows it. *)
Theorem vertical_slides_pair_in_order (ranked : list Photo.t) :
  let verticalPhotos := filter isVertical ranked in
  exists verticalSlides,
    buildVerticalSlides verticalPhotos = Some verticalSlides /\
    length verticalSlides = (length verticalPhotos / 2)%nat /\
    (forall k, (k < length verticalPhotos / 2)%nat ->
       exists photo1 photo2,
         verticalPhotos !! (2 * k)%nat = Some photo1 /\
         verticalPhotos !! (2 * k + 1)%nat = Some photo2 /\
         verticalSlides !! k = Some (createVerticalSlide photo1 photo2)) /\
    (forall photo1 photo2,
       Slide.photos (createVerticalSlide photo1 photo2) = [photo1; photo2] /\
       NoDup (Slide.tags (createVerticalSlide photo1 photo2)) /\
       forall tag, tag ∈ Slide.tags (createVerticalSlide photo1 photo2) <->
                   tag ∈ Photo.tags photo1 \/ tag ∈ Photo.tags photo2) /\
    verticalSlides ≫= Slide.photos
      = take (2 * (length verticalPhotos / 2)) verticalPhotos /\
    (Nat.Odd (length verticalPhotos) ->
     2 * (length verticalPhotos / 2) = length verticalPhotos - 1)%nat /\
    (NoDup (Photo.id <$> ranked) -> Nat.Odd (length verticalPhotos) ->
     forall unpaired, last verticalPhotos = Some unpaired ->
       slidesShowing (Photo.id unpaired)
         (buildHorizontalSlides (filter isHorizontal ranked) ++ verticalSlides)
       = 0%nat).
Proof.
  intros verticalPhotos. exists (pairSlides verticalPhotos).
  split; [apply buildVerticalSlides_pairSlides|].
  split; [apply pairSlides_length|].
  split; [apply pairSlides_lookup|].
  split; [apply createVerticalSlide_spec|].
  split; [apply pairSlides_photos|].
  split; [apply odd_half|].
  intros Hnd Hodd unpaired Hlast.
  apply slidesShowing_zero.
  rewrite slideIds_app, buildHorizontalSlides_fmap, slideIds_horizontal,
    slideIds_vertical, elem_of_app.
  rewrite last_lookup in Hlast.
  assert (Hin : unpaired ∈ verticalPhotos) by (apply list_elem_of_lookup; eauto).
  apply list_elem_of_filter in Hin as [Hvert Hin].
  intros [Hh|Hv].
  - apply list_elem_of_fmap in Hh as (q & Hid & Hq).
    apply list_elem_of_filter in Hq as [Hhor Hq].
    assert (unpaired = q) as -> by (by apply (same_id_same_photo ranked)).
    unfold isHorizontal, isVertical in *. congruence.
  - revert Hv. apply (id_not_in_take _ _ (pred (length verticalPhotos))).
    + by apply NoDup_ids_filter.
    + rewrite odd_half by done. lia.
    + done.
Qed.

Lemma vertical_slides_pair_in_order_witness :
  let v (n : nat) (tags : list Tag) := Photo.mk n "V" tags 0 in
  let ranked :=
    [v 4%nat [Some "a"]; Photo.mk 0%nat "H" [Some "b"] 0; v 2%nat [Some "c"; Some "a"];
     v 7%nat [Some "d"]] in
  exists verticalSlides,
    buildVerticalSlides (filter isVertical ranked) = Some verticalSlides /\
    verticalSlides
      = [Slide.mk [v 4%nat [Some "a"]; v 2%nat [Some "c"; Some "a"]] [Some "a"; Some "c"]] /\
    NoDup (Photo.id <$> ranked) /\
    Nat.Odd (length (filter isVertical ranked)) /\
    last (filter isVertical ranked) = Some (v 7%nat [Some "d"]) /\
    slidesShowing 7%nat (buildHorizontalSlides (filter isHorizontal ranked) ++ verticalSlides)
    = 0%nat.
Proof.
  intros v ranked.
  destruct (vertical_slides_pair_in_order ranked)
    as (verticalSlides & Hbuild & _ & _ & _ & _ & _ & Hnone).
  exists verticalSlides.
  assert (Hnd : NoDup (Photo.id <$> ranked))
    by by_compute.
  assert (Hodd : Nat.Odd (length (filter isVertical ranked)))
    by (exists 1%nat; reflexivity).
  split; [exact Hbuild|].
  split; [vm_compute in Hbuild; injection Hbuild as <-; reflexivity|].
  split; [exact Hnd|]. split; [exact Hodd|]. split; [reflexivity|].
  exact (Hnone Hnd Hodd (v 7%nat [Some "d"]) eq_refl).
Defined.

(** ** Sorting *)

Section SortFacts.
Context {A B : Type} (key : A -> Z) (touch : A -> A) (f : A -> B).
Hypothesis key_touch : forall x, key (touch x) = key x.
Hypothesis touch_touch : forall x, touch (touch x) = touch x.

Lemma descending_cons x l :
  descending key (x :: l) <-> (forall y, y ∈ l -> key y <= key x) /\ descending key l.
Proof.
  unfold descending. split.
  - intros H. split.
    + intros y [j Hj]%list_elem_of_lookup. by apply (H 0%nat (S j) x y); [lia|..].
    + intros i j a b Hij Ha Hb. by apply (H (S i) (S j) a b); [lia|..].
  - intros [Hx Hl] [|i] [|j] a b Hij Ha Hb; simplify_eq/=; try lia.
    + apply Hx, list_elem_of_lookup. eauto.
    + apply (Hl i j a b); [lia|done..].
Qed.

Lemma descending_nil : descending key [].
Proof. intros i j x y _ Hx. by rewrite lookup_nil in Hx. Qed.

Lemma insertDesc_Permutation x l : insertDesc key x l ≡ₚ x :: l.
Proof.
  induction l as [|y l IH]; simpl; [done|].
  destruct (decide (key y - key x <= 0)); [done|].
  rewrite IH. apply Permutation_swap.
Qed.

Lemma sortDesc_Permutation l : sortDesc key l ≡ₚ l.
Proof.
  induction l as [|x l IH]; simpl; [done|].
  by rewrite insertDesc_Permutation, IH.
Qed.

Lemma insertDesc_descending x l :
  descending key l -> descending key (insertDesc key x l).
Proof.
  induction l as [|y l IH]; simpl; intros Hl.
  - apply descending_cons. split; [|done]. intros y Hy. by apply elem_of_nil in Hy.
  - pose proof Hl as [Hy Hl']%descending_cons.
    destruct (decide (key y - key x <= 0)) as [Hle|Hgt].
    + apply descending_cons. split; [|done].
      intros z [->|Hz]%elem_of_cons; [lia|]. specialize (Hy z Hz). lia.
    + apply descending_cons. split; [|by apply IH].
      intros z Hz. rewrite insertDesc_Permutation in Hz.
      apply elem_of_cons in Hz as [->|Hz]; [lia|]. by apply Hy.
Qed.

Lemma sortDesc_descending l : descending key (sortDesc key l).
Proof.
  induction l as [|x l IH]; simpl; [apply descending_nil|].
  by apply insertDesc_descending.
Qed.

(** Insertion keeps the order among the elements of each key: the new
    element passes only elements with a strictly larger key. *)
Lemma insertDesc_withKey k x l :
  withKey key k (insertDesc key x l) = withKey key k (x :: l).
Proof.
  unfold withKey. induction l as [|y l IH]; simpl; [done|].
  destruct (decide (key y - key x <= 0)) as [Hle|Hgt]; [done|].
  rewrite filter_cons, IH, !filter_cons.
  destruct (decide (key y = k)), (decide (key x = k)); try done. lia.
Qed.

Lemma sortDesc_withKey k l : withKey key k (sortDesc key l) = withKey key k l.
Proof.
  induction l as [|x l IH]; simpl; [done|].
  rewrite insertDesc_withKey. unfold withKey in *.
  by rewrite !filter_cons, IH.
Qed.

(** Two lists in comparator order with the same elements under each key,
    in the same order, are the same list (as seen through [f]). *)
Lemma descending_withKey_unique l1 l2 :
  descending key l1 -> descending key l2 ->
  (forall k, f <$> withKey key k l1 = f <$> withKey key k l2) ->
  f <$> l1 = f <$> l2.
Proof.
  revert l2. induction l1 as [|x r1 IH]; intros l2 H1 H2 Hk.
  - destruct l2 as [|y r2]; [done|].
    specialize (Hk (key y)). unfold withKey in Hk.
    rewrite filter_nil, filter_cons in Hk.
    destruct (decide (key y = key y)); [discriminate | done].
  - apply descending_cons in H1 as [Hx H1].
    destruct l2 as [|y r2].
    { specialize (Hk (key x)). unfold withKey in Hk.
      rewrite filter_nil, filter_cons in Hk.
      destruct (decide (key x = key x)); [discriminate | done]. }
    apply descending_cons in H2 as [Hy H2].
    assert (Hxy : key x = key y).
    { apply Z.le_antisymm.
      - pose proof (Hk (key x)) as Hkx. unfold withKey in Hkx.
        rewrite (filter_cons _ x), decide_True in Hkx by done.
        rewrite filter_cons in Hkx. destruct (decide (key y = key x)); [lia|].
        destruct (filter (fun a => key a = key x) r2) as [|z r] eqn:Hz; [discriminate|].
        assert (Hin : z ∈ filter (fun a => key a = key x) r2) by (rewrite Hz; left).
        apply list_elem_of_filter in Hin as [<- Hin]. by apply Hy.
      - pose proof (Hk (key y)) as Hky. unfold withKey in Hky.
        rewrite (filter_cons _ y), decide_True in Hky by done.
        rewrite filter_cons in Hky. destruct (decide (key x = key y)); [lia|].
        destruct (filter (fun a => key a = key y) r1) as [|z r] eqn:Hz; [discriminate|].
        assert (Hin : z ∈ filter (fun a => key a = key y) r1) by (rewrite Hz; left).
        apply list_elem_of_filter in Hin as [<- Hin]. by apply Hx. }
    pose proof (Hk (key x)) as Hkx. unfold withKey in Hkx.
    rewrite !filter_cons, !decide_True in Hkx by done.
    rewrite !fmap_cons in *. injection Hkx as Hf Hrest. f_equal; [done|].
    apply IH; [done..|]. intros k. specialize (Hk k). unfold withKey in *.
    rewrite !filter_cons in Hk.
    destruct (decide (key x = k)) as [<-|Hne]; [done|].
    rewrite decide_False in Hk by lia. done.
Qed.

Lemma insertDesc_touch x l :
  touch <$> insertDesc key (touch x) l = touch <$> insertDesc key x l.
Proof.
  induction l as [|y l IH]; simpl.
  - by rewrite touch_touch.
  - rewrite key_touch. destruct (decide (key y - key x <= 0)); simpl.
    + by rewrite touch_touch.
    + f_equal. apply IH.
Qed.

(** Inserting into a list that has been written to writes to the new
    element as well. *)
Lemma sortInsert_touched x l :
  l <> [] -> sortInsert (touching key touch) x (touch <$> l) = touch <$> insertDesc key x l.
Proof.
  revert x. induction l as [|y l IH]; intros x Hne; [done|].
  simpl. rewrite key_touch, touch_touch.
  destruct (decide (key y - key x <= 0)); [done|].
  simpl. f_equal. destruct l as [|z l]; [done|].
  rewrite IH by done. apply insertDesc_touch.
Qed.

Lemma sortInsert_single x y :
  sortInsert (touching key touch) x [y] = touch <$> insertDesc key x [y].
Proof. simpl. by destruct (decide (key y - key x <= 0)). Qed.

(** The comparator is not called on fewer than two elements; on two or
    more it is called on each, and the result is the insertion sort of the
    elements written to. *)
Lemma sort_touching l :
  sort (touching key touch) l = if decide (length l <= 1)%nat then l else touch <$> sortDesc key l.
Proof.
  induction l as [|x l IH]; [done|].
  cbn [sort sortDesc]. rewrite IH.
  destruct l as [|y [|z l]].
  - done.
  - rewrite decide_True by (simpl; lia). rewrite decide_False by (simpl; lia).
    apply sortInsert_single.
  - rewrite decide_False by (simpl; lia). rewrite decide_False by (simpl; lia).
    apply sortInsert_touched.
    intros Hnil. apply (f_equal length) in Hnil.
    rewrite (Permutation_length (sortDesc_Permutation _)) in Hnil. done.
Qed.

End SortFacts.

(** ** Ranking the photos *)

Lemma filter_fmap_iff {A B} (g : A -> B) (P : B -> Prop) (Q : A -> Prop)
    `{!forall y, Decision (P y)} `{!forall x, Decision (Q x)} (l : list A) :
  (forall x, P (g x) <-> Q x) -> filter P (g <$> l) = g <$> filter Q l.
Proof.
  intros HPQ. induction l as [|x l IH]; [done|].
  rewrite fmap_cons, !filter_cons, IH.
  destruct (decide (P (g x))) as [HP|HP], (decide (Q x)) as [HQ|HQ];
    try done; apply HPQ in HP || apply HPQ in HQ; done.
Qed.

Lemma calculateTagScore_sum allTags photo :
  calculateTagScore allTags photo = sumZ (popularity allTags <$> Photo.tags photo).
Proof.
  unfold calculateTagScore.
  assert (H : forall l acc,
    foldl (fun score tag =>
             match allTags !! tag with
             | Some tagEntry => score + Z.of_nat (length (TagEntry.photoIds tagEntry))
             | None => score
             end) acc l
    = acc + sumZ (popularity allTags <$> l)); [|by rewrite H].
  induction l as [|t l IH]; intros acc; [simpl; lia|].
  rewrite fmap_cons. cbn [foldl sumZ foldr]. rewrite IH.
  unfold sumZ, popularity, photoIdsOf.
  destruct (allTags !! t); cbn [length]; lia.
Qed.

Lemma comparePhotos_touching allTags :
  comparePhotos allTags = touching (calculateTagScore allTags) (scored allTags).
Proof. reflexivity. Qed.

Lemma rankPhotos_sortDesc st :
  rankPhotos st =
  if decide (length (photos st) <= 1)%nat then photos st
  else scored (allTags st) <$> sortDesc (calculateTagScore (allTags st)) (photos st).
Proof.
  unfold rankPhotos. rewrite comparePhotos_touching.
  by apply sort_touching.
Qed.

Lemma identity_scored allTags (l : list Photo.t) : identity <$> (scored allTags <$> l) = identity <$> l.
Proof. rewrite <- list_fmap_compose. by apply list_fmap_ext. Qed.

Lemma withKey_scored allTags k (l : list Photo.t) :
  withKey (calculateTagScore allTags) k (scored allTags <$> l)
  = scored allTags <$> withKey (calculateTagScore allTags) k l.
Proof. unfold withKey. by apply filter_fmap_iff. Qed.

Lemma descending_scored allTags (l : list Photo.t) :
  descending (calculateTagScore allTags) l ->
  descending (calculateTagScore allTags) (scored allTags <$> l).
Proof.
  intros Hl i j x y Hij Hx Hy.
  rewrite list_lookup_fmap in Hx, Hy.
  destruct (l !! i) as [x'|] eqn:Hx'; [|done].
  destruct (l !! j) as [y'|] eqn:Hy'; [|done].
  simplify_eq/=. apply (Hl i j x' y' Hij Hx' Hy').
Qed.

Lemma descending_short {A} (key : A -> Z) (l : list A) : (length l <= 1)%nat -> descending key l.
Proof.
  intros Hlen i j x y Hij Hx%lookup_lt_Some Hy%lookup_lt_Some. lia.
Qed.

(** The ranked photos are the catalog's, up to [tagScore]. *)
Lemma rankPhotos_identity st : identity <$> rankPhotos st ≡ₚ identity <$> photos st.
Proof.
  rewrite rankPhotos_sortDesc. case_decide; [done|].
  by rewrite identity_scored, sortDesc_Permutation.
Qed.

Lemma rankPhotos_descending st :
  descending (calculateTagScore (allTags st)) (rankPhotos st).
Proof.
  rewrite rankPhotos_sortDesc. case_decide.
  - by apply descending_short.
  - apply descending_scored, sortDesc_descending.
Qed.

Lemma rankPhotos_withKey st k :
  identity <$> withKey (calculateTagScore (allTags st)) k (rankPhotos st)
  = identity <$> withKey (calculateTagScore (allTags st)) k (photos st).
Proof.
  rewrite rankPhotos_sortDesc. case_decide; [done|].
  by rewrite withKey_scored, identity_scored, sortDesc_withKey.
Qed.

(** C4: the ranking pass of [solve] leaves the catalog in descending order
    of tag score, the tag score of a photo being the sum over its tags of
    the number of photo ids registered under the tag; the photos are those
    of the catalog, and photos of equal tag score keep their input order.
    When the catalog has two photos or more, each carries its tag score in
    its field.  No other arrangement of the catalog is descending and keeps
    the input order among equals. *)
Theorem rankPhotos_descending_stable (st : State) :
  let tagScore := calculateTagScore (allTags st) in
  let ranked := rankPhotos st in
  (forall photo : Photo.t,
      tagScore photo = sumZ (popularity (allTags st) <$> Photo.tags photo)) /\
  identity <$> ranked ≡ₚ identity <$> photos st /\
  descending tagScore ranked /\
  (forall k : Z,
      identity <$> withKey tagScore k ranked
      = identity <$> withKey tagScore k (photos st)) /\
  ((2 <= length (photos st))%nat ->
   Forall (fun photo => Photo.tagScore photo = tagScore photo) ranked) /\
  (forall other : list Photo.t,
      descending tagScore other ->
      (forall k : Z,
          identity <$> withKey tagScore k other
          = identity <$> withKey tagScore k (photos st)) ->
      identity <$> other = identity <$> ranked).
Proof.
  intros tagScore ranked.
  split; [apply calculateTagScore_sum|].
  split; [apply rankPhotos_identity|].
  split; [apply rankPhotos_descending|].
  split; [apply rankPhotos_withKey|].
  split.
  - intros Hlen. subst ranked. rewrite rankPhotos_sortDesc.
    rewrite decide_False by lia. apply Forall_fmap, Forall_true. done.
  - intros other Hdesc Hkeys.
    apply (descending_withKey_unique tagScore); [done | apply rankPhotos_descending|].
    intros k. rewrite Hkeys. symmetry. apply rankPhotos_withKey.
Qed.

Lemma rankPhotos_descending_stable_witness :
  let photo (n : nat) (tags : list Tag) := Photo.mk n "H" tags 0 in
  let e (tag : string) (ids : list nat) := (Some tag, TagEntry.mk (Some tag) ids) in
  let st :=
    mkState [photo 0%nat [Some "a"]; photo 1%nat [Some "a"; Some "b"];
             photo 2%nat [Some "b"]; photo 3%nat [Some "a"]]
            (list_to_map [e "a" [0; 1; 3]%nat; e "b" [1; 2]%nat]) in
  (2 <= length (photos st))%nat /\
  Photo.id <$> rankPhotos st = [1; 0; 3; 2]%nat /\
  Forall (fun p => Photo.tagScore p = calculateTagScore (allTags st) p) (rankPhotos st) /\
  identity <$> [photo 1%nat [Some "a"; Some "b"]; photo 0%nat [Some "a"];
                photo 3%nat [Some "a"]; photo 2%nat [Some "b"]]
  = identity <$> rankPhotos st.
Proof.
  intros photo e st.
  destruct (rankPhotos_descending_stable st) as (_ & _ & _ & _ & Hfield & Hunique).
  assert (Hlen : (2 <= length (photos st))%nat) by (simpl; lia).
  split; [exact Hlen|]. split; [reflexivity|]. split; [exact (Hfield Hlen)|].
  apply Hunique.
  - repeat (apply descending_cons; split;
            [intros y Hy;
             repeat (apply elem_of_cons in Hy as [->|Hy]; [vm_compute; discriminate|]);
             by apply elem_of_nil in Hy|]).
    apply descending_nil.
  - intros k. unfold withKey.
    change (photos st)
      with [photo 0%nat [Some "a"]; photo 1%nat [Some "a"; Some "b"];
            photo 2%nat [Some "b"]; photo 3%nat [Some "a"]].
    rewrite !filter_cons, !filter_nil.
    change (calculateTagScore (allTags st) (photo 0%nat [Some "a"])) with 3.
    change (calculateTagScore (allTags st) (photo 1%nat [Some "a"; Some "b"])) with 5.
    change (calculateTagScore (allTags st) (photo 2%nat [Some "b"])) with 2.
    change (calculateTagScore (allTags st) (photo 3%nat [Some "a"])) with 3.
    repeat case_decide; try lia; reflexivity.
Defined.

(** ** The solver *)

Lemma solve_slides st :
  solve st =
  Some (mkState (rankPhotos st) (allTags st),
        (createHorizontalSlide <$> filter isHorizontal (rankPhotos st))
        ++ pairSlides (filter isVertical (rankPhotos st))).
Proof.
  unfold solve. rewrite buildVerticalSlides_pairSlides. simpl.
  by rewrite buildHorizontalSlides_fmap.
Qed.

Lemma pairSlides_vertical l :
  Forall isVertical l ->
  Forall (fun slide => exists photo1 photo2,
            Slide.photos slide = [photo1; photo2] /\
            isVertical photo1 /\ isVertical photo2)
         (pairSlides l).
Proof.
  induction l as [| x | x y l IH] using pair_induction; intros Hl; simpl.
  - constructor.
  - constructor.
  - apply Forall_cons in Hl as [Hx Hl]. apply Forall_cons in Hl as [Hy Hl].
    constructor; [|by apply IH]. exists x, y. done.
Qed.

Lemma Forall_filter_holds {A} (P : A -> Prop) `{!forall x, Decision (P x)} (l : list A) :
  Forall P (filter P l).
Proof. apply Forall_forall. intros x Hx. by apply list_elem_of_filter in Hx as [? _]. Qed.

(** C5: under the sequencing that [solve] applies, the final slides are the
    horizontal slides in the order they were built, followed by the
    vertical slides in the order they were built; the first block holds
    one slide for each horizontal photo in ranked order, the second the
    pairs of vertical photos. *)
Theorem solve_horizontal_then_vertical (st : State) :
  let ranked := rankPhotos st in
  exists horizontalSlides verticalSlides : list Slide.t,
    horizontalSlides = buildHorizontalSlides (filter isHorizontal ranked) /\
    buildVerticalSlides (filter isVertical ranked) = Some verticalSlides /\
    solve st = Some (mkState ranked (allTags st), horizontalSlides ++ verticalSlides) /\
    horizontalSlides = createHorizontalSlide <$> filter isHorizontal ranked /\
    Forall (fun slide => exists photo,
              Slide.photos slide = [photo] /\ isHorizontal photo)
           horizontalSlides /\
    Forall (fun slide => exists photo1 photo2,
              Slide.photos slide = [photo1; photo2] /\
              isVertical photo1 /\ isVertical photo2)
           verticalSlides.
Proof.
  intros ranked.
  exists (buildHorizontalSlides (filter isHorizontal ranked)),
         (pairSlides (filter isVertical ranked)).
  split; [done|].
  split; [apply buildVerticalSlides_pairSlides|].
  split; [by rewrite solve_slides, buildHorizontalSlides_fmap|].
  split; [apply buildHorizontalSlides_fmap|].
  split.
  - rewrite buildHorizontalSlides_fmap. apply Forall_fmap.
    eapply Forall_impl; [apply (Forall_filter_holds isHorizontal)|].
    intros photo Hp. exists photo. done.
  - apply pairSlides_vertical, Forall_filter_holds.
Qed.

(** *** Every photo in one slide *)

Lemma length_filter_identity (P : Photo.t -> Prop) (Q : nat * string * list Tag -> Prop)
    `{!forall p, Decision (P p)} `{!forall i, Decision (Q i)} (l1 l2 : list Photo.t) :
  (forall p, Q (identity p) <-> P p) ->
  identity <$> l1 ≡ₚ identity <$> l2 ->
  length (filter P l1) = length (filter P l2).
Proof.
  intros HPQ Hperm.
  rewrite <- (length_fmap identity (filter P l1)), <- (length_fmap identity (filter P l2)).
  rewrite <- !(filter_fmap_iff identity Q P) by done.
  by rewrite Hperm.
Qed.

Lemma ids_identity (l : list Photo.t) : Photo.id <$> l = (fun i => i.1.1) <$> (identity <$> l).
Proof. rewrite <- list_fmap_compose. by apply list_fmap_ext. Qed.

Lemma rankPhotos_ids st : Photo.id <$> rankPhotos st ≡ₚ Photo.id <$> photos st.
Proof. by rewrite !ids_identity, rankPhotos_identity. Qed.

(** Each photo of the catalog has its ranked counterpart. *)
Lemma rankPhotos_elem_of st photo :
  photo ∈ photos st ->
  exists ranked, ranked ∈ rankPhotos st /\ identity ranked = identity photo.
Proof.
  intros Hin.
  assert (Hid : identity photo ∈ identity <$> rankPhotos st).
  { rewrite rankPhotos_identity. by apply list_elem_of_fmap_2. }
  apply list_elem_of_fmap in Hid as (ranked & Heq & Hr). eauto.
Qed.

Lemma filter_all {A} (P : A -> Prop) `{!forall x, Decision (P x)} (l : list A) :
  Forall P l -> filter P l = l.
Proof.
  induction 1 as [|x l Hx Hl IH]; [done|].
  by rewrite filter_cons_True, IH.
Qed.

Lemma filter_none {A} (P : A -> Prop) `{!forall x, Decision (P x)} (l : list A) :
  Forall (fun x => ~ P x) l -> filter P l = [].
Proof.
  induction 1 as [|x l Hx Hl IH]; [done|].
  by rewrite filter_cons_False, IH.
Qed.

Lemma length_mod_2 n : (n - 2 * (n / 2) = n mod 2)%nat.
Proof. pose proof (Nat.div_mod_eq n 2). lia. Qed.

Section Partition.
Context (ranked : list Photo.t).
Hypothesis ranked_ids : NoDup (Photo.id <$> ranked).

Let horizontalPhotos := filter isHorizontal ranked.
Let verticalPhotos := filter isVertical ranked.
Let paired := (2 * (length verticalPhotos / 2))%nat.
Let slides := (createHorizontalSlide <$> horizontalPhotos) ++ pairSlides verticalPhotos.

Lemma slideIds_solve :
  slideIds slides = (Photo.id <$> horizontalPhotos) ++ (Photo.id <$> take paired verticalPhotos).
Proof.
  unfold slides. by rewrite slideIds_app, slideIds_horizontal, slideIds_vertical.
Qed.

(** A ranked photo whose id is among the ids of the slides is horizontal,
    or one of the paired vertical photos. *)
Lemma shown_ranked photo :
  photo ∈ ranked -> Photo.id photo ∈ slideIds slides ->
  photo ∈ horizontalPhotos \/ photo ∈ take paired verticalPhotos.
Proof.
  intros Hin. rewrite slideIds_solve, elem_of_app.
  intros [Hid|Hid]; [left|right];
    apply list_elem_of_fmap in Hid as (q & Heq & Hq).
  - assert (photo = q) as ->; [|done].
    apply (same_id_same_photo ranked); try done.
    by apply list_elem_of_filter in Hq as [_ ?].
  - assert (photo = q) as ->; [|done].
    apply (same_id_same_photo ranked); try done.
    assert (Hq' : q ∈ verticalPhotos).
    { apply elem_of_take in Hq as (i & Hi & _). by eapply list_elem_of_lookup_2. }
    by apply list_elem_of_filter in Hq' as [_ ?].
Qed.

Lemma slideIds_solve_NoDup : NoDup (slideIds slides).
Proof.
  rewrite slideIds_solve. apply NoDup_app. split; [|split].
  - by apply NoDup_ids_filter.
  - intros i (p & -> & Hp)%list_elem_of_fmap (q & Heq & Hq)%list_elem_of_fmap.
    apply list_elem_of_filter in Hp as [Hhor Hp].
    assert (Hq' : q ∈ verticalPhotos).
    { apply elem_of_take in Hq as (j & Hj & _). by eapply list_elem_of_lookup_2. }
    apply list_elem_of_filter in Hq' as [Hver Hq'].
    assert (p = q) as -> by (by apply (same_id_same_photo ranked)).
    unfold isHorizontal, isVertical in *. congruence.
  - eapply sublist_NoDup; [apply (NoDup_ids_filter isVertical), ranked_ids|].
    apply fmap_sublist, sublist_take.
Qed.

(** The vertical photos that no slide shows are those after the pairs. *)
Lemma unshown_vertical :
  filter (fun photo => slidesShowing (Photo.id photo) slides = 0%nat) verticalPhotos
  = drop paired verticalPhotos.
Proof.
  rewrite <- (firstn_skipn paired verticalPhotos) at 1.
  rewrite filter_app, filter_none, filter_all; [done|..].
  - apply Forall_forall. intros p [i Hi]%list_elem_of_lookup.
    rewrite lookup_drop in Hi.
    apply slidesShowing_zero. rewrite slideIds_solve, elem_of_app.
    intros [Hh|Hv].
    + apply list_elem_of_fmap in Hh as (q & Heq & Hq).
      apply list_elem_of_filter in Hq as [Hhor Hq].
      assert (Hp : p ∈ verticalPhotos) by (by eapply list_elem_of_lookup_2).
      apply list_elem_of_filter in Hp as [Hver Hp].
      assert (p = q) as -> by (by apply (same_id_same_photo ranked)).
      unfold isHorizontal, isVertical in *. congruence.
    + revert Hv. apply (id_not_in_take _ _ (paired + i)); [|lia|done].
      by apply NoDup_ids_filter.
  - apply Forall_forall. intros p Hp. rewrite slidesShowing_zero.
    intros Hnot. apply Hnot. rewrite slideIds_solve, elem_of_app. right.
    by apply list_elem_of_fmap_2.
Qed.

Lemma unshown_vertical_length :
  length (filter (fun photo => isVertical photo /\
                               slidesShowing (Photo.id photo) slides = 0%nat) ranked)
  = (length verticalPhotos mod 2)%nat.
Proof.
  transitivity
    (length (filter (fun photo => slidesShowing (Photo.id photo) slides = 0%nat)
                    verticalPhotos)).
  { unfold verticalPhotos. rewrite list_filter_filter. f_equal.
    apply list_filter_iff. tauto. }
  rewrite unshown_vertical, length_drop. apply length_mod_2.
Qed.

End Partition.

Lemma filter_iff_Forall {A} (P Q : A -> Prop)
    `{!forall x, Decision (P x)} `{!forall x, Decision (Q x)} (l : list A) :
  Forall (fun x => P x <-> Q x) l -> filter P l = filter Q l.
Proof.
  induction 1 as [|x l Hx Hl IH]; [done|].
  rewrite !filter_cons, IH.
  destruct (decide (P x)), (decide (Q x)); tauto.
Qed.

(** C8, as the code has it: with distinct photo ids, [solve] returns slides
    in which no photo is shown twice, every horizontal photo is shown once,
    every vertical photo is shown once but for one when their number is
    odd, and a photo that is neither horizontal nor vertical is shown by no
    slide.  When every photo is horizontal or vertical, the catalog is
    partitioned as the claim says. *)
Theorem solve_partition (st : State) :
  NoDup (Photo.id <$> photos st) ->
  exists (st' : State) (slides : list Slide.t),
    solve st = Some (st', slides) /\
    Forall (fun photo => (slidesShowing (Photo.id photo) slides <= 1)%nat) (photos st) /\
    Forall (fun photo =>
              isHorizontal photo -> slidesShowing (Photo.id photo) slides = 1%nat)
           (photos st) /\
    length (filter (fun photo => isVertical photo /\
                                 slidesShowing (Photo.id photo) slides = 0%nat)
                   (photos st))
    = (length (filter isVertical (photos st)) mod 2)%nat /\
    Forall (fun photo =>
              ~ isHorizontal photo -> ~ isVertical photo ->
              slidesShowing (Photo.id photo) slides = 0%nat)
           (photos st) /\
    (Forall (fun photo => isHorizontal photo \/ isVertical photo) (photos st) ->
     partitioned (photos st) slides).
Proof.
  intros Hids. rewrite solve_slides. eexists _, _. split; [reflexivity|].
  set (ranked := rankPhotos st).
  set (slides := (createHorizontalSlide <$> filter isHorizontal ranked)
                 ++ pairSlides (filter isVertical ranked)).
  assert (Hranked : NoDup (Photo.id <$> ranked)).
  { unfold ranked. by rewrite rankPhotos_ids. }
  assert (Hle : forall i, (slidesShowing i slides <= 1)%nat).
  { intros i. apply slidesShowing_le_1, slideIds_solve_NoDup, Hranked. }
  assert (Hhor : Forall (fun photo =>
            isHorizontal photo -> slidesShowing (Photo.id photo) slides = 1%nat)
           (photos st)).
  { apply Forall_forall. intros photo Hin Hh.
    destruct (rankPhotos_elem_of st photo Hin) as (r & Hr & Heq).
    injection Heq as Hid Hor Htags.
    assert (Hshown : Photo.id photo ∈ slideIds slides).
    { unfold slides. rewrite slideIds_solve, elem_of_app. left.
      rewrite <- Hid. apply list_elem_of_fmap_2, list_elem_of_filter.
      split; [|done]. unfold isHorizontal in *. congruence. }
    pose proof (Hle (Photo.id photo)).
    pose proof (proj1 (slidesShowing_zero (Photo.id photo) slides)).
    destruct (slidesShowing (Photo.id photo) slides) as [|[|n]]; [tauto | done | lia]. }
  assert (Hcount :
    length (filter (fun photo => isVertical photo /\
                                 slidesShowing (Photo.id photo) slides = 0%nat)
                   (photos st))
    = (length (filter isVertical (photos st)) mod 2)%nat).
  { rewrite <- (length_filter_identity isVertical (fun i => i.1.2 = "V") ranked (photos st));
      [|done|apply rankPhotos_identity].
    rewrite <- (length_filter_identity _
                 (fun i => i.1.2 = "V" /\ slidesShowing i.1.1 slides = 0%nat)
                 ranked (photos st)); [|done|apply rankPhotos_identity].
    by apply unshown_vertical_length. }
  assert (Hother : Forall (fun photo =>
              ~ isHorizontal photo -> ~ isVertical photo ->
              slidesShowing (Photo.id photo) slides = 0%nat)
           (photos st)).
  { apply Forall_forall. intros photo Hin Hnh Hnv.
    apply slidesShowing_zero. intros Hshown.
    destruct (rankPhotos_elem_of st photo Hin) as (r & Hr & Heq).
    injection Heq as Hid Hor Htags. rewrite <- Hid in Hshown.
    destruct (shown_ranked ranked Hranked r Hr Hshown) as [Hh|Hv].
    - apply list_elem_of_filter in Hh as [Hh _].
      unfold isHorizontal in *. congruence.
    - apply elem_of_take in Hv as (i & Hi & _).
      apply list_elem_of_lookup_2, list_elem_of_filter in Hi as [Hv _].
      unfold isVertical in *. congruence. }
  split; [apply Forall_forall; intros; apply Hle|].
  split; [exact Hhor|]. split; [exact Hcount|]. split; [exact Hother|].
  intros Hhv. unfold partitioned.
  split; [apply Forall_forall; intros; apply Hle|].
  assert (Hdropped :
    filter (fun photo => slidesShowing (Photo.id photo) slides = 0%nat) (photos st)
    = filter (fun photo => isVertical photo /\
                           slidesShowing (Photo.id photo) slides = 0%nat) (photos st)).
  { apply filter_iff_Forall.
    rewrite Forall_forall in Hhv, Hhor. apply Forall_forall.
    intros photo Hin. split; [|tauto].
    intros Hzero. split; [|done].
    destruct (Hhv photo Hin) as [Hh|Hv]; [|done].
    specialize (Hhor photo Hin Hh). lia. }
  rewrite Hdropped. split; [|exact Hcount].
  apply Forall_forall. intros photo Hin. by apply list_elem_of_filter in Hin as [[? _] _].
Qed.

(** ** Reading the input *)

Lemma split_nonempty sep s : exists first rest, split sep s = first :: rest.
Proof.
  induction s as [|c s (first & rest & IH)]; simpl; [by eauto|].
  destruct (decide (c = sep)); [by eauto|]. rewrite IH. eauto.
Qed.

Lemma readPhoto_loop_tags parts n i tags :
  readPhoto_loop parts n i tags
  = tags ++ ((fun j => parts !! (j + 2)%nat) <$> seq i n).
Proof.
  revert i tags. induction n as [|n IH]; intros i tags; simpl.
  - by rewrite app_nil_r.
  - by rewrite IH, <- app_assoc.
Qed.

(** What [readPhoto] returns, field by field. *)
Lemma readPhoto_Some line nextIndex photo :
  readPhoto line nextIndex = Some photo <->
  exists n, tripCount (parseFloat (split " " line !! 1%nat)) = Some n /\
    photo = Photo.mk nextIndex (ToString (split " " line !! 0%nat))
                     ((fun j => split " " line !! (j + 2)%nat) <$> seq 0 n) 0.
Proof.
  unfold readPhoto.
  destruct (tripCount (parseFloat (split " " line !! 1%nat))) as [n|]; simpl.
  - rewrite readPhoto_loop_tags. simpl. split.
    + intros [= <-]. eauto.
    + intros (m & [= <-] & ->). done.
  - split; [done|]. by intros (n & ? & _).
Qed.

Lemma readFile_loop_readPhotos lines nextIndex st :
  readFile_loop lines nextIndex st =
  new ← readPhotos (filter (fun line => line <> "") lines) nextIndex;
  Some (mkState (photos st ++ new) (registerAll (allTags st) new)).
Proof.
  revert nextIndex st. induction lines as [|line rest IH]; intros n st.
  - simpl. rewrite app_nil_r. by destruct st.
  - cbn [readFile_loop]. rewrite filter_cons.
    destruct (decide (line = "")) as [->|Hne].
    + rewrite decide_False by (by intros []). apply IH.
    + rewrite decide_True by done. cbn [readPhotos].
      destruct (readPhoto (trim line) n) as [photo|]; simpl; [|done].
      rewrite IH. cbn [photos allTags].
      destruct (readPhotos _ (S n)) as [new|]; simpl; [|done].
      by rewrite <- app_assoc.
Qed.

Lemma readFile_readPhotos data :
  readFile data reset =
  new ← readPhotos (photoLines data) 0;
  Some (mkState new (registerAll ∅ new)).
Proof. unfold readFile. by rewrite readFile_loop_readPhotos. Qed.

Lemma readPhotos_lookup lines nextIndex new :
  readPhotos lines nextIndex = Some new ->
  length new = length lines /\
  forall k line, lines !! k = Some line ->
    exists photo, new !! k = Some photo /\
                  readPhoto (trim line) (nextIndex + k) = Some photo.
Proof.
  revert nextIndex new. induction lines as [|line rest IH]; intros n new; simpl.
  - intros [= <-]. split; [done|]. intros k line Hk. by rewrite lookup_nil in Hk.
  - destruct (readPhoto (trim line) n) as [photo|] eqn:Hphoto; simpl; [|done].
    destruct (readPhotos rest (S n)) as [new'|] eqn:Hrest; simpl; [|done].
    intros [= <-]. destruct (IH _ _ Hrest) as [Hlen Hk]. split; [simpl; lia|].
    intros [|k] l Hl; simplify_eq/=.
    + exists photo. by rewrite Nat.add_0_r.
    + destruct (Hk k l Hl) as (p & Hp1 & Hp2). exists p.
      by replace (n + S k)%nat with (S n + k)%nat by lia.
Qed.

Lemma readPhotos_total lines nextIndex :
  Forall countModelled lines -> is_Some (readPhotos lines nextIndex).
Proof.
  intros Hlines. revert nextIndex.
  induction Hlines as [|line rest [n Hn] _ IH]; intros idx; simpl; [done|].
  unfold readPhoto. unfold fields in Hn. rewrite Hn. simpl.
  destruct (IH (S idx)) as [new ->]. done.
Qed.

Lemma readPhotos_ids lines nextIndex new :
  readPhotos lines nextIndex = Some new ->
  Photo.id <$> new = seq nextIndex (length new).
Proof.
  revert nextIndex new. induction lines as [|line rest IH]; intros n new; simpl.
  - by intros [= <-].
  - destruct (readPhoto (trim line) n) as [photo|] eqn:Hphoto; simpl; [|done].
    destruct (readPhotos rest (S n)) as [new'|] eqn:Hrest; simpl; [|done].
    intros [= <-]. apply readPhoto_Some in Hphoto as (m & _ & ->).
    simpl. f_equal. by apply IH.
Qed.

(** The catalog read from a file numbers its photos from 0. *)
Lemma readFile_ids data st :
  readFile data reset = Some st ->
  Photo.id <$> photos st = seq 0 (length (photos st)).
Proof.
  rewrite readFile_readPhotos.
  destruct (readPhotos (photoLines data) 0) as [new|] eqn:Hnew; simpl; [|done].
  intros [= <-]. by apply readPhotos_ids in Hnew.
Qed.

(** On tag counts in the range of [tripCount], [readFile] returns, from any
    state. *)
Lemma readFile_total data st0 :
  Forall countModelled (photoLines data) -> is_Some (readFile data st0).
Proof.
  intros Hlines. unfold readFile. rewrite readFile_loop_readPhotos.
  fold (photoLines data).
  destruct (readPhotos_total (photoLines data) 0 Hlines) as [new ->]. by eexists.
Qed.

(** The tags that [readFile] stores for a line are the fields of the line
    from the third on, as many as the tag count says. *)
Lemma readFile_stored_tags data st :
  readFile data reset = Some st ->
  forall (k : nat) (line : string), photoLines data !! k = Some line ->
    exists (photo : Photo.t) (n : nat),
      photos st !! k = Some photo /\
      tripCount (parseFloat (fields line !! 1%nat)) = Some n /\
      Photo.tags photo = (fun j => fields line !! (j + 2)%nat) <$> seq 0 n.
Proof.
  rewrite readFile_readPhotos.
  destruct (readPhotos (photoLines data) 0) as [new|] eqn:Hnew; simpl; [|done].
  intros [= <-] k line Hline. cbn [photos].
  destruct (readPhotos_lookup _ _ _ Hnew) as [_ Hk].
  destruct (Hk k line Hline) as (photo & Hphoto & Hread).
  apply readPhoto_Some in Hread as (n & Hn & ->).
  eexists _, n. split; [exact Hphoto|]. split; [exact Hn | reflexivity].
Qed.

(** C7, as the code has it: [readFile] rejects no line.  On a file whose
    tag counts are all in the range of [tripCount], it returns a catalog
    with one photo for each non-empty line after the first, in order and
    numbered from 0, so a line that cannot be parsed yields a photo and the
    lines after it are read.  The photo takes the first field of its line
    as orientation; a missing or non-numeric tag count gives it no tags; a
    tag count [n] gives it [n] tags, the fields from the third on, and
    [undefined] for each field that is missing. *)
Theorem readFile_keeps_malformed_lines (data : string) :
  Forall countModelled (photoLines data) ->
  exists st : State,
    readFile data reset = Some st /\
    length (photos st) = length (photoLines data) /\
    forall (k : nat) (line : string), photoLines data !! k = Some line ->
      exists (photo : Photo.t) (first : string),
        photos st !! k = Some photo /\
        fields line !! 0%nat = Some first /\
        Photo.id photo = k /\
        Photo.orientation photo = first /\
        Photo.tagScore photo = 0 /\
        (parseFloat (fields line !! 1%nat) = NaN -> Photo.tags photo = []) /\
        (forall n : nat, tripCount (parseFloat (fields line !! 1%nat)) = Some n ->
           length (Photo.tags photo) = n /\
           forall i : nat, (i < n)%nat ->
             Photo.tags photo !! i = Some (fields line !! (i + 2)%nat)).
Proof.
  intros Hlines. rewrite readFile_readPhotos.
  destruct (readPhotos_total (photoLines data) 0 Hlines) as [new Hnew].
  rewrite Hnew. simpl. eexists. split; [reflexivity|]. cbn [photos].
  destruct (readPhotos_lookup _ _ _ Hnew) as [Hlen Hk]. split; [done|].
  intros k line Hline.
  destruct (Hk k line Hline) as (photo & Hphoto & Hread).
  apply readPhoto_Some in Hread as (n & Hn & ->).
  fold (fields line) in *.
  destruct (split_nonempty " " (trim line)) as (first & rest & Hfirst).
  exists (Photo.mk (0 + k) (ToString (fields line !! 0%nat))
                   ((fun j => fields line !! (j + 2)%nat) <$> seq 0 n) 0), first.
  assert (Hf0 : fields line !! 0%nat = Some first)
    by (unfold fields; by rewrite Hfirst).
  split; [done|]. rewrite !Hf0.
  split; [done|]. split; [done|]. split; [done|]. split; [done|].
  cbn [Photo.tags]. split.
  - intros Hnan. rewrite Hnan in Hn. by injection Hn as <-.
  - intros m Hm. assert (m = n) as -> by congruence.
    split; [by rewrite length_fmap, length_seq|].
    intros i Hi. by rewrite list_lookup_fmap, lookup_seq_lt.
Qed.

Lemma readFile_keeps_malformed_lines_witness :
  let data := "3
H x a
V 2 b

H 1 c" in
  Forall countModelled (photoLines data) /\
  Exists malformed (photoLines data) /\
  exists st : State,
    readFile data reset = Some st /\
    length (photos st) = 3%nat /\
    photos st !! 0%nat = Some (Photo.mk 0 "H" [] 0) /\
    photos st !! 1%nat = Some (Photo.mk 1 "V" [Some "b"; None] 0).
Proof.
  intros data.
  assert (Hlines : Forall countModelled (photoLines data)).
  { repeat constructor; vm_compute; eauto. }
  split; [exact Hlines|].
  split; [left; left; reflexivity|].
  destruct (readFile_keeps_malformed_lines data Hlines) as (st & Hst & Hlen & Hk).
  exists st. split; [exact Hst|]. split; [exact Hlen|].
  vm_compute in Hst. injection Hst as <-. split; reflexivity.
Defined.

(** C7 as stated fails: a file with a non-numeric tag count on one line and
    a missing tag on another is read without failure, both lines yield a
    photo, and the line after them is read. *)
Lemma readFile_malformed_counterexample :
  let data := "3
H x a
V 2 b
H 1 c" in
  photoLines data = ["H x a"; "V 2 b"; "H 1 c"] /\
  malformed "H x a" /\ malformed "V 2 b" /\
  exists st : State,
    readFile data reset = Some st /\
    photos st = [Photo.mk 0 "H" [] 0; Photo.mk 1 "V" [Some "b"; None] 0;
                 Photo.mk 2 "H" [Some "c"] 0].
Proof.
  intros data. split; [reflexivity|].
  split; [left; reflexivity|].
  split; [right; exists 2%nat; split; [reflexivity | simpl; lia]|].
  eexists. split; [vm_compute; reflexivity | reflexivity].
Qed.

(** ** The tag index *)

Lemma photoIdsOf_registerTag (photo : Photo.t) (allTags : gmap Tag TagEntry.t)
    (tag' tag : Tag) :
  photoIdsOf (registerTag photo allTags tag') tag
  = photoIdsOf allTags tag ++ (if decide (tag' = tag) then [Photo.id photo] else []).
Proof.
  unfold photoIdsOf, registerTag.
  destruct (decide (tag' = tag)) as [->|Hne].
  - destruct (allTags !! tag) as [tagEntry|] eqn:Hentry;
      by rewrite lookup_insert_eq.
  - rewrite app_nil_r.
    destruct (allTags !! tag') as [tagEntry|]; by rewrite lookup_insert_ne.
Qed.

Lemma photoIdsOf_register_tags (photo : Photo.t) (tags : list Tag)
    (allTags : gmap Tag TagEntry.t) (tag : Tag) :
  photoIdsOf (foldl (registerTag photo) allTags tags) tag
  = photoIdsOf allTags tag
    ++ ((fun _ => Photo.id photo) <$> filter (fun t => t = tag) tags).
Proof.
  revert allTags. induction tags as [|t tags IH]; intros allTags; simpl.
  - by rewrite app_nil_r.
  - rewrite IH, photoIdsOf_registerTag, filter_cons, <- app_assoc.
    by destruct (decide (t = tag)).
Qed.

(** The ids under a tag after a run of registrations. *)
Lemma photoIdsOf_registerAll (new : list Photo.t) (allTags : gmap Tag TagEntry.t)
    (tag : Tag) :
  photoIdsOf (registerAll allTags new) tag
  = photoIdsOf allTags tag ++ registrations tag new.
Proof.
  unfold registerAll, registrations.
  revert allTags. induction new as [|photo new IH]; intros allTags; simpl.
  - by rewrite app_nil_r.
  - by rewrite IH, photoIdsOf_register_tags, <- app_assoc.
Qed.

Lemma filter_eq_NoDup (tag : Tag) (tags : list Tag) :
  NoDup tags ->
  filter (fun t => t = tag) tags = if decide (tag ∈ tags) then [tag] else [].
Proof.
  induction 1 as [|t tags Hnotin Hnd IH]; [done|].
  rewrite filter_cons, IH.
  destruct (decide (t = tag)) as [->|Hne].
  - rewrite decide_False by done. rewrite decide_True by left. done.
  - destruct (decide (tag ∈ tags)) as [Hin|Hnin].
    + rewrite decide_True by (by right). done.
    + rewrite decide_False; [done|].
      intros [?|?]%elem_of_cons; congruence.
Qed.

(** Without duplicate tags, a tag registers each photo that carries it
    once. *)
Lemma registrations_carrying (tag : Tag) (l : list Photo.t) :
  Forall (fun photo => NoDup (Photo.tags photo)) l ->
  registrations tag l = Photo.id <$> carrying tag l.
Proof.
  unfold registrations, carrying.
  induction 1 as [|photo l Hnd Hl IH]; [done|].
  rewrite bind_cons, IH, filter_cons, filter_eq_NoDup by done.
  by destruct (decide (tag ∈ Photo.tags photo)).
Qed.

(** What the tag index holds after a file has been read. *)
Lemma readFile_tag_index_of (data : string) (st : State) :
  readFile data reset = Some st ->
  (forall tag : Tag, photoIdsOf (allTags st) tag = registrations tag (photos st)) /\
  (Forall (fun photo => NoDup (Photo.tags photo)) (photos st) ->
   (forall tag : Tag,
       photoIdsOf (allTags st) tag = Photo.id <$> carrying tag (photos st)) /\
   tagIndexExact st).
Proof.
  intros Hread. pose proof (readFile_ids data st Hread) as Hids.
  rewrite readFile_readPhotos in Hread.
  destruct (readPhotos (photoLines data) 0) as [new|]; simpl in Hread; [|done].
  injection Hread as <-. cbn [photos allTags] in *.
  assert (Hreg : forall tag, photoIdsOf (registerAll ∅ new) tag = registrations tag new).
  { intros tag. rewrite photoIdsOf_registerAll. unfold photoIdsOf.
    by rewrite lookup_empty. }
  split; [exact Hreg|]. intros Hnd.
  assert (Hcarry : forall tag,
             photoIdsOf (registerAll ∅ new) tag = Photo.id <$> carrying tag new).
  { intros tag. by rewrite Hreg, registrations_carrying. }
  split; [exact Hcarry|]. split; [exact Hnd|]. cbn [photos allTags]. split.
  - intros tag. rewrite Hcarry. apply NoDup_ids_filter.
    rewrite Hids. apply NoDup_seq.
  - intros tag. by rewrite Hcarry, length_fmap.
Qed.

(** C6, as the code has it: on a file whose tag counts are all in the
    range of [tripCount], [readFile] returns, and it stores the tags of a
    line as they stand, duplicates and missing fields included: the tags of
    the photo of a line are the fields of the line from the third on, as
    many as the tag count says.  It registers the id of a photo under a tag
    once for each occurrence of the tag in the photo's tag list.  When no
    stored tag list has a duplicate, the ids under a tag are those of the
    photos that carry it, in reading order: no id is registered twice and
    their number is the number of photos that carry the tag. *)
Theorem readFile_tag_index (data : string) :
  Forall countModelled (photoLines data) ->
  exists st : State,
    readFile data reset = Some st /\
    (forall (k : nat) (line : string), photoLines data !! k = Some line ->
       exists (photo : Photo.t) (n : nat),
         photos st !! k = Some photo /\
         tripCount (parseFloat (fields line !! 1%nat)) = Some n /\
         Photo.tags photo = (fun j => fields line !! (j + 2)%nat) <$> seq 0 n) /\
    (forall tag : Tag, photoIdsOf (allTags st) tag = registrations tag (photos st)) /\
    (Forall (fun photo => NoDup (Photo.tags photo)) (photos st) ->
     (forall tag : Tag,
         photoIdsOf (allTags st) tag = Photo.id <$> carrying tag (photos st)) /\
     tagIndexExact st).
Proof.
  intros Hlines. destruct (readFile_total data reset Hlines) as [st Hread].
  exists st. split; [exact Hread|].
  split; [by apply (readFile_stored_tags data)|].
  by apply (readFile_tag_index_of data).
Qed.

Lemma readFile_tag_index_witness :
  let data := "3
H 2 sun sea
V 1 sun
H 2 sea sun" in
  Forall countModelled (photoLines data) /\
  exists st : State,
    readFile data reset = Some st /\
    Photo.tags <$> photos st
    = [[Some "sun"; Some "sea"]; [Some "sun"]; [Some "sea"; Some "sun"]] /\
    Forall (fun photo => NoDup (Photo.tags photo)) (photos st) /\
    tagIndexExact st /\
    photoIdsOf (allTags st) (Some "sun") = [0; 1; 2]%nat /\
    photoIdsOf (allTags st) (Some "sea") = [0; 2]%nat.
Proof.
  intros data.
  assert (Hlines : Forall countModelled (photoLines data)).
  { repeat constructor; vm_compute; eauto. }
  split; [exact Hlines|].
  destruct (readFile_tag_index data Hlines) as (st & Hst & _ & _ & Hexact).
  exists st. split; [exact Hst|].
  assert (Hnd : Forall (fun photo => NoDup (Photo.tags photo)) (photos st)).
  { vm_compute in Hst. injection Hst as <-.
    repeat (apply Forall_cons; split; [by_compute|]).
    constructor. }
  destruct (Hexact Hnd) as [_ Hex].
  split; [vm_compute in Hst; injection Hst as <-; reflexivity|].
  split; [exact Hnd|]. split; [exact Hex|].
  vm_compute in Hst. injection Hst as <-. split; reflexivity.
Defined.

(** C6 as stated fails: a line that lists a tag twice gives a photo whose
    tag list has the tag twice and whose id is registered twice under it,
    so that the tag has two ids for one photo. *)
Lemma readFile_tag_index_counterexample :
  let data := "1
H 2 a a" in
  exists st : State,
    readFile data reset = Some st /\
    photos st = [Photo.mk 0 "H" [Some "a"; Some "a"] 0] /\
    photoIdsOf (allTags st) (Some "a") = [0; 0]%nat /\
    length (carrying (Some "a") (photos st)) = 1%nat /\
    ~ tagIndexExact st.
Proof.
  intros data. eexists. split; [vm_compute; reflexivity|].
  split; [reflexivity|]. split; [reflexivity|]. split; [reflexivity|].
  intros (_ & _ & Hlen). specialize (Hlen (Some "a")). discriminate Hlen.
Qed.

(** ** The catalog of a file, solved *)

Lemma solve_partition_witness :
  let data := "5
V 1 a
H 2 a b
V 1 c
H 1 a
V 2 b c" in
  exists (st st' : State) (slides : list Slide.t),
    readFile data reset = Some st /\
    NoDup (Photo.id <$> photos st) /\
    Forall (fun photo => isHorizontal photo \/ isVertical photo) (photos st) /\
    solve st = Some (st', slides) /\
    partitioned (photos st) slides /\
    slideIds slides = [1; 3; 4; 0]%nat.
Proof.
  intros data.
  destruct (readFile data reset) as [st|] eqn:Hst; [|vm_compute in Hst; discriminate].
  assert (Hids : NoDup (Photo.id <$> photos st)).
  { rewrite (readFile_ids data st Hst). apply NoDup_seq. }
  destruct (solve_partition st Hids) as (st' & slides & Hsolve & _ & _ & _ & _ & Hpart).
  exists st, st', slides. split; [reflexivity|]. split; [exact Hids|].
  assert (Hhv : Forall (fun photo => isHorizontal photo \/ isVertical photo) (photos st)).
  { vm_compute in Hst. injection Hst as <-.
    repeat (apply Forall_cons; split; [(by left) || (by right)|]). constructor. }
  split; [exact Hhv|]. split; [exact Hsolve|]. split; [exact (Hpart Hhv)|].
  vm_compute in Hst. injection Hst as <-.
  vm_compute in Hsolve. injection Hsolve as _ <-. reflexivity.
Defined.

(** C8 as stated fails: a photo whose orientation is neither H nor V is
    in the catalog and in no slide, while the number of vertical photos is
    even. *)
Lemma solve_partition_counterexample :
  let data := "2
X 1 a
H 1 a" in
  exists (st st' : State) (slides : list Slide.t),
    readFile data reset = Some st /\
    solve st = Some (st', slides) /\
    Photo.id <$> photos st = [0; 1]%nat /\
    slideIds slides = [1]%nat /\
    slidesShowing 0 slides = 0%nat /\
    length (filter isVertical (photos st)) = 0%nat /\
    ~ partitioned (photos st) slides.
Proof.
  intros data. eexists _, _, _.
  split; [vm_compute; reflexivity|].
  split; [vm_compute; reflexivity|].
  split; [reflexivity|]. split; [reflexivity|]. split; [reflexivity|].
  split; [reflexivity|].
  intros (_ & _ & Hlen). vm_compute in Hlen. discriminate Hlen.
Qed.

(** The scenario of four photos: the two horizontal slides come first, in
    ranked order, then the slide of the two vertical photos, and the
    score is 0. *)
Example processFile_scenario :
  let data := "4
H 2 a b
V 1 c
V 1 c
H 1 a" in
  exists slideshow : Slideshow.t,
    processFile data = Some slideshow /\
    slideIds (Slideshow.slides slideshow) = [0; 3; 1; 2]%nat /\
    Slide.tags <$> Slideshow.slides slideshow
      = [[Some "a"; Some "b"]; [Some "a"]; [Some "c"]] /\
    Slideshow.score slideshow = 0.
Proof.
  intros data. eexists. split; [vm_compute; reflexivity|].
  split; [reflexivity|]. split; reflexivity.
Qed.

(** * Further properties *)

(** ** More on the scorer *)

(** The tags of [a] split into those in [b] and those not in [b]. *)
Lemma commonCount_onlyCount a b :
  commonCount a b + onlyCount a b = Z.of_nat (length a).
Proof.
  unfold commonCount, onlyCount.
  pose proof (Permutation_length (filter_app_complement (fun t => t ∈ b) a)) as Hlen.
  rewrite length_app in Hlen. lia.
Qed.

Lemma commonCount_le a b : NoDup a -> commonCount a b <= commonCount b a.
Proof.
  intros Ha. unfold commonCount.
  assert (Hsub : filter (fun t => t ∈ b) a ⊆+ filter (fun t => t ∈ a) b).
  { apply NoDup_submseteq; [by apply NoDup_filter|].
    intros t. rewrite !list_elem_of_filter. tauto. }
  apply submseteq_length in Hsub. lia.
Qed.

Lemma commonCount_zero a b : (forall t, t ∈ a -> t ∉ b) -> commonCount a b = 0.
Proof.
  intros H. unfold commonCount. rewrite filter_none; [done|].
  apply Forall_forall. intros t Ht. by apply H.
Qed.

Lemma onlyCount_zero a b : (forall t, t ∈ a -> t ∈ b) -> onlyCount a b = 0.
Proof.
  intros H. unfold onlyCount. rewrite filter_none; [done|].
  apply Forall_forall. intros t Ht Hnot. by apply Hnot, H.
Qed.

(** X1: the score of two slides is at most half the number of tags of the
    first; when the tag list of the first has no duplicates, it is at most
    half the number of tags of the second as well. *)
Theorem compareSlides_half (slideA slideB : Slide.t) :
  2 * compareSlides slideA slideB <= Z.of_nat (length (Slide.tags slideA)) /\
  (NoDup (Slide.tags slideA) ->
   2 * compareSlides slideA slideB <= Z.of_nat (length (Slide.tags slideB))).
Proof.
  rewrite compareSlides_counts.
  pose proof (commonCount_onlyCount (Slide.tags slideA) (Slide.tags slideB)).
  pose proof (commonCount_onlyCount (Slide.tags slideB) (Slide.tags slideA)).
  split; [lia|]. intros Hnd.
  pose proof (commonCount_le (Slide.tags slideA) (Slide.tags slideB) Hnd). lia.
Qed.

Lemma compareSlides_half_witness :
  let slideA := Slide.mk [] [Some "a"; Some "b"; Some "c"; Some "d"] in
  let slideB := Slide.mk [] [Some "a"; Some "b"; Some "e"] in
  NoDup (Slide.tags slideA) /\
  compareSlides slideA slideB = 1 /\
  2 * compareSlides slideA slideB <= Z.of_nat (length (Slide.tags slideB)).
Proof.
  intros slideA slideB.
  assert (Hnd : NoDup (Slide.tags slideA)) by by_compute.
  split; [exact Hnd|]. split; [reflexivity|].
  exact (proj2 (compareSlides_half slideA slideB) Hnd).
Defined.

(** X2: two slides score 0 when every tag of one is a tag of the other
    (so also a slide next to itself), and when they share no tag. *)
Theorem compareSlides_zero (slideA slideB : Slide.t) :
  (forall tag, tag ∈ Slide.tags slideA -> tag ∈ Slide.tags slideB) \/
  (forall tag, tag ∈ Slide.tags slideB -> tag ∈ Slide.tags slideA) \/
  (forall tag, tag ∈ Slide.tags slideA -> tag ∉ Slide.tags slideB) ->
  compareSlides slideA slideB = 0.
Proof.
  rewrite compareSlides_counts.
  pose proof (commonCount_bounds (Slide.tags slideA) (Slide.tags slideB)).
  pose proof (onlyCount_bounds (Slide.tags slideA) (Slide.tags slideB)).
  pose proof (onlyCount_bounds (Slide.tags slideB) (Slide.tags slideA)).
  intros [Hsub|[Hsub|Hdisj]].
  - rewrite (onlyCount_zero _ _ Hsub). lia.
  - rewrite (onlyCount_zero _ _ Hsub). lia.
  - rewrite (commonCount_zero _ _ Hdisj). lia.
Qed.

Lemma compareSlides_zero_witness :
  let slideA := Slide.mk [] [Some "a"; Some "b"] in
  let slideB := Slide.mk [] [Some "b"; Some "c"; Some "a"] in
  (forall tag, tag ∈ Slide.tags slideA -> tag ∈ Slide.tags slideB) /\
  compareSlides slideA slideB = 0.
Proof.
  intros slideA slideB.
  assert (Hsub : forall tag, tag ∈ Slide.tags slideA -> tag ∈ Slide.tags slideB).
  { intros tag. simpl. rewrite !elem_of_cons. tauto. }
  split; [exact Hsub|].
  exact (compareSlides_zero slideA slideB (or_introl Hsub)).
Defined.

Lemma totalScore_app slides1 slides2 :
  totalScore (slides1 ++ slides2)
  = totalScore slides1 + bridgeScore slides1 slides2 + totalScore slides2.
Proof.
  induction slides1 as [|x [|y rest] IH].
  - unfold bridgeScore. simpl. lia.
  - unfold bridgeScore. destruct slides2; simpl; lia.
  - change (totalScore ((x :: y :: rest) ++ slides2))
      with (compareSlides x y + totalScore ((y :: rest) ++ slides2)).
    rewrite IH. unfold bridgeScore. rewrite last_cons_cons.
    change (totalScore (x :: y :: rest))
      with (compareSlides x y + totalScore (y :: rest)).
    lia.
Qed.

(** X3: the score of two runs of slides put one after the other is the sum
    of their scores and of the score between the last slide of the first
    and the first slide of the second. *)
Theorem getScore_app (slides1 slides2 : list Slide.t) (score1 score2 score : Z) :
  exists total1 total2 : Z,
    getScore (Slideshow.mk slides1 score1) = Some total1 /\
    getScore (Slideshow.mk slides2 score2) = Some total2 /\
    getScore (Slideshow.mk (slides1 ++ slides2) score)
    = Some (total1 + bridgeScore slides1 slides2 + total2).
Proof.
  exists (totalScore slides1), (totalScore slides2).
  rewrite !getScore_total. cbn [Slideshow.slides].
  by rewrite totalScore_app.
Qed.

Lemma totalScore_reverse slides :
  Forall (fun slide => NoDup (Slide.tags slide)) slides ->
  totalScore (reverse slides) = totalScore slides.
Proof.
  induction 1 as [|x rest Hx Hrest IH]; [done|].
  rewrite reverse_cons, totalScore_app, IH.
  unfold bridgeScore. rewrite last_reverse.
  destruct rest as [|y rest']; simpl; [lia|].
  apply Forall_cons in Hrest as [Hy _].
  rewrite (compareSlides_counts y x), (compareSlides_counts x y).
  rewrite (commonCount_comm _ _ Hy Hx). lia.
Qed.

(** X4: when no slide has a duplicate tag, the slides in reverse order
    have the same score. *)
Theorem getScore_reverse (slides : list Slide.t) (score : Z) :
  Forall (fun slide => NoDup (Slide.tags slide)) slides ->
  getScore (Slideshow.mk (reverse slides) score) = getScore (Slideshow.mk slides score).
Proof.
  intros Hnd. rewrite !getScore_total. cbn [Slideshow.slides].
  by rewrite totalScore_reverse.
Qed.

Lemma getScore_reverse_witness :
  let slides :=
    [Slide.mk [] [Some "a"; Some "b"; Some "c"; Some "d"];
     Slide.mk [] [Some "a"; Some "b"; Some "e"; Some "f"];
     Slide.mk [] [Some "e"; Some "g"]] in
  Forall (fun slide => NoDup (Slide.tags slide)) slides /\
  getScore (Slideshow.mk slides 0) = Some 3 /\
  getScore (Slideshow.mk (reverse slides) 0) = getScore (Slideshow.mk slides 0).
Proof.
  intros slides.
  assert (Hnd : Forall (fun slide => NoDup (Slide.tags slide)) slides).
  { repeat (apply Forall_cons; split; [by_compute|]). constructor. }
  split; [exact Hnd|]. split; [reflexivity|].
  exact (getScore_reverse slides 0 Hnd).
Defined.

(** ** More on the slides *)

Lemma setValues_app seen tags1 tags2 :
  setValues seen (tags1 ++ tags2) = setValues (setValues seen tags1) tags2.
Proof.
  revert seen. induction tags1 as [|t tags1 IH]; intros seen; simpl; [done|].
  destruct (includes seen t); apply IH.
Qed.

(** Added to a set, a list without duplicates leaves the set followed by
    its elements that are new. *)
Lemma setValues_NoDup_filter seen tags :
  NoDup tags -> setValues seen tags = seen ++ filter (fun t => t ∉ seen) tags.
Proof.
  intros Hnd. revert seen.
  induction Hnd as [|t tags Hnotin Hnd IH]; intros seen; simpl.
  - by rewrite app_nil_r.
  - rewrite filter_cons. destruct (includes seen t) eqn:Hseen.
    + apply includes_elem_of in Hseen. rewrite decide_False by tauto. apply IH.
    + apply includes_false in Hseen. rewrite decide_True by done.
      rewrite IH, <- app_assoc. simpl. do 2 f_equal.
      apply filter_iff_Forall, Forall_forall. intros x Hx.
      rewrite elem_of_app, list_elem_of_singleton.
      split; [tauto|]. intros Hnot [Hin|Heq]; [tauto|]. subst. tauto.
Qed.

(** X5: when neither photo has a duplicate tag, the tags of a vertical
    slide are the tags of its first photo, in their order, followed by the
    tags of the second photo that the first does not have, in their
    order. *)
Theorem createVerticalSlide_tags (photo1 photo2 : Photo.t) :
  NoDup (Photo.tags photo1) -> NoDup (Photo.tags photo2) ->
  Slide.tags (createVerticalSlide photo1 photo2)
  = Photo.tags photo1 ++ filter (fun t => t ∉ Photo.tags photo1) (Photo.tags photo2).
Proof.
  intros H1 H2. unfold createVerticalSlide. cbn [Slide.tags].
  rewrite app_nil_l, setValues_app.
  rewrite (setValues_NoDup_filter [] _ H1), app_nil_l.
  rewrite filter_all by (apply Forall_forall; intros t _; apply not_elem_of_nil).
  by apply setValues_NoDup_filter.
Qed.

Lemma createVerticalSlide_tags_witness :
  let photo1 := Photo.mk 0 "V" [Some "sun"; Some "sea"] 0 in
  let photo2 := Photo.mk 1 "V" [Some "sky"; Some "sun"; Some "sand"] 0 in
  NoDup (Photo.tags photo1) /\ NoDup (Photo.tags photo2) /\
  Slide.tags (createVerticalSlide photo1 photo2)
  = [Some "sun"; Some "sea"; Some "sky"; Some "sand"] /\
  Slide.tags (createVerticalSlide photo1 photo2)
  = Photo.tags photo1 ++ filter (fun t => t ∉ Photo.tags photo1) (Photo.tags photo2).
Proof.
  intros photo1 photo2.
  assert (H1 : NoDup (Photo.tags photo1)) by by_compute.
  assert (H2 : NoDup (Photo.tags photo2)) by by_compute.
  split; [exact H1|]. split; [exact H2|]. split; [reflexivity|].
  exact (createVerticalSlide_tags photo1 photo2 H1 H2).
Defined.

Lemma Permutation_elem_of (a b : list Tag) :
  a ≡ₚ b -> forall t, t ∈ a <-> t ∈ b.
Proof. intros H t. by rewrite H. Qed.

Lemma commonCount_proper a a' b b' :
  a ≡ₚ a' -> (forall t, t ∈ b <-> t ∈ b') -> commonCount a b = commonCount a' b'.
Proof.
  intros Ha Hb. unfold commonCount.
  rewrite (list_filter_iff (fun t => t ∈ b) (fun t => t ∈ b') a) by done.
  by rewrite Ha.
Qed.

Lemma onlyCount_proper a a' b b' :
  a ≡ₚ a' -> (forall t, t ∈ b <-> t ∈ b') -> onlyCount a b = onlyCount a' b'.
Proof.
  intros Ha Hb. unfold onlyCount.
  rewrite (list_filter_iff (fun t => t ∉ b) (fun t => t ∉ b') a)
    by (intros t; by rewrite Hb).
  by rewrite Ha.
Qed.

(** The score looks at the tags of a slide only up to their order. *)
Lemma compareSlides_Permutation slide1 slide1' slide2 slide2' :
  Slide.tags slide1 ≡ₚ Slide.tags slide1' ->
  Slide.tags slide2 ≡ₚ Slide.tags slide2' ->
  compareSlides slide1 slide2 = compareSlides slide1' slide2'.
Proof.
  intros H1 H2. rewrite !compareSlides_counts.
  rewrite (commonCount_proper _ _ _ _ H1 (Permutation_elem_of _ _ H2)).
  rewrite (onlyCount_proper _ _ _ _ H1 (Permutation_elem_of _ _ H2)).
  rewrite (onlyCount_proper _ _ _ _ H2 (Permutation_elem_of _ _ H1)).
  done.
Qed.

Lemma createVerticalSlide_swap photo1 photo2 :
  Slide.tags (createVerticalSlide photo1 photo2)
  ≡ₚ Slide.tags (createVerticalSlide photo2 photo1).
Proof.
  destruct (createVerticalSlide_spec photo1 photo2) as (_ & Hnd12 & Hin12).
  destruct (createVerticalSlide_spec photo2 photo1) as (_ & Hnd21 & Hin21).
  apply NoDup_Permutation; [done..|].
  intros tag. rewrite Hin12, Hin21. tauto.
Qed.

(** X6: which of its two photos comes first does not change what a
    vertical slide scores next to any slide, on either side. *)
Theorem createVerticalSlide_order_score (photo1 photo2 : Photo.t) (other : Slide.t) :
  compareSlides (createVerticalSlide photo1 photo2) other
  = compareSlides (createVerticalSlide photo2 photo1) other /\
  compareSlides other (createVerticalSlide photo1 photo2)
  = compareSlides other (createVerticalSlide photo2 photo1).
Proof.
  split; apply compareSlides_Permutation;
    done || apply createVerticalSlide_swap.
Qed.

Lemma pairSlides_elem_of l slide :
  slide ∈ pairSlides l ->
  exists photo1 photo2,
    slide = createVerticalSlide photo1 photo2 /\ photo1 ∈ l /\ photo2 ∈ l.
Proof.
  induction l as [| x | x y l IH] using pair_induction; simpl.
  - by intros ?%elem_of_nil.
  - by intros ?%elem_of_nil.
  - intros [->|Hin]%elem_of_cons.
    + exists x, y. split; [done|]. split; [left | right; left].
    + destruct (IH Hin) as (p1 & p2 & -> & H1 & H2).
      exists p1, p2. split; [done|]. split; by do 2 right.
Qed.

Lemma rankPhotos_elem_of_catalog st photo :
  photo ∈ rankPhotos st -> identity photo ∈ identity <$> photos st.
Proof.
  intros Hin. rewrite <- rankPhotos_identity. by apply list_elem_of_fmap_2.
Qed.

(** X7: in every slide that [solve] returns, the tags are exactly the tags
    of the photos of the slide, and each photo of the slide is a photo of
    the catalog (up to its tag score).  When no photo of the catalog has a
    duplicate tag, no slide has one. *)
Theorem solve_slide_tags (st st' : State) (slides : list Slide.t) :
  solve st = Some (st', slides) ->
  Forall (fun slide =>
            (forall tag : Tag,
                tag ∈ Slide.tags slide <->
                exists photo, photo ∈ Slide.photos slide /\ tag ∈ Photo.tags photo) /\
            (forall photo, photo ∈ Slide.photos slide ->
                           identity photo ∈ identity <$> photos st))
         slides /\
  (Forall (fun photo => NoDup (Photo.tags photo)) (photos st) ->
   Forall (fun slide => NoDup (Slide.tags slide)) slides).
Proof.
  rewrite solve_slides. intros [= <- <-]. split.
  - apply Forall_app. split.
    + apply Forall_fmap, Forall_forall. intros photo Hin.
      apply list_elem_of_filter in Hin as [_ Hin]. cbn. split.
      * intros tag. split; [intros Htag; exists photo; split; [left | done]|].
        intros (p & ->%list_elem_of_singleton & Htag). done.
      * intros p ->%list_elem_of_singleton. by apply rankPhotos_elem_of_catalog.
    + apply Forall_forall. intros slide Hin.
      apply pairSlides_elem_of in Hin as (p1 & p2 & -> & H1 & H2).
      apply list_elem_of_filter in H1 as [_ H1].
      apply list_elem_of_filter in H2 as [_ H2].
      destruct (createVerticalSlide_spec p1 p2) as (Hphotos & _ & Htags).
      rewrite Hphotos. split.
      * intros tag. rewrite Htags. split.
        -- intros [Ht|Ht]; [exists p1 | exists p2]; (split; [|done]);
             rewrite !elem_of_cons; tauto.
        -- intros (p & Hp & Ht). rewrite !elem_of_cons, elem_of_nil in Hp.
           destruct Hp as [->|[->|[]]]; tauto.
      * intros p Hp. rewrite !elem_of_cons, elem_of_nil in Hp.
        destruct Hp as [->|[->|[]]]; by apply rankPhotos_elem_of_catalog.
  - intros Hnd. apply Forall_app. split.
    + apply Forall_fmap, Forall_forall. intros photo Hin.
      apply list_elem_of_filter in Hin as [_ Hin]. cbn.
      apply rankPhotos_elem_of_catalog, list_elem_of_fmap in Hin as (q & Heq & Hq).
      rewrite Forall_forall in Hnd. specialize (Hnd q Hq).
      injection Heq as _ _ ->. done.
    + apply Forall_forall. intros slide Hin.
      apply pairSlides_elem_of in Hin as (p1 & p2 & -> & _ & _).
      apply createVerticalSlide_spec.
Qed.

Lemma solve_slide_tags_witness :
  let st :=
    mkState [Photo.mk 0 "V" [Some "a"; Some "b"] 0; Photo.mk 1 "H" [Some "c"] 0;
             Photo.mk 2 "V" [Some "b"; Some "d"] 0] ∅ in
  exists (st' : State) (slides : list Slide.t),
    solve st = Some (st', slides) /\
    Forall (fun photo => NoDup (Photo.tags photo)) (photos st) /\
    Slide.tags <$> slides = [[Some "c"]; [Some "a"; Some "b"; Some "d"]] /\
    Forall (fun slide => NoDup (Slide.tags slide)) slides.
Proof.
  intros st.
  destruct (solve st) as [[st' slides]|] eqn:Hsolve; [|vm_compute in Hsolve; discriminate].
  exists st', slides. split; [reflexivity|].
  assert (Hnd : Forall (fun photo => NoDup (Photo.tags photo)) (photos st)).
  { repeat (apply Forall_cons; split; [by_compute|]). constructor. }
  split; [exact Hnd|].
  split; [vm_compute in Hsolve; injection Hsolve as _ <-; reflexivity|].
  exact (proj2 (solve_slide_tags st st' slides Hsolve) Hnd).
Defined.

(** ** More on ranking and solving *)

Section SortAgain.
Context {A : Type} (key : A -> Z) (touch : A -> A).
Hypothesis key_touch : forall x, key (touch x) = key x.

(** Sorting a list that is in comparator order changes nothing. *)
Lemma sortDesc_descending_id l : descending key l -> sortDesc key l = l.
Proof.
  induction l as [|x l IH]; [done|].
  intros [Hx Hl]%descending_cons. simpl. rewrite IH by done.
  destruct l as [|y l]; [done|]. simpl.
  rewrite decide_True; [done|].
  assert (key y <= key x) by (apply Hx; left). lia.
Qed.

Lemma insertDesc_fmap_touch x l :
  insertDesc key (touch x) (touch <$> l) = touch <$> insertDesc key x l.
Proof.
  induction l as [|y l IH]; [done|].
  rewrite fmap_cons. cbn [insertDesc]. rewrite !key_touch.
  destruct (decide (key y - key x <= 0)); [done|].
  rewrite fmap_cons. f_equal. apply IH.
Qed.

Lemma sortDesc_fmap_touch l : sortDesc key (touch <$> l) = touch <$> sortDesc key l.
Proof.
  induction l as [|x l IH]; [done|].
  rewrite fmap_cons. cbn [sortDesc]. rewrite IH. apply insertDesc_fmap_touch.
Qed.

End SortAgain.

Lemma rankPhotos_length st : length (rankPhotos st) = length (photos st).
Proof.
  rewrite <- (length_fmap identity (rankPhotos st)), <- (length_fmap identity (photos st)).
  apply Permutation_length, rankPhotos_identity.
Qed.

(** Ranking a ranked catalog leaves it as it is. *)
Lemma rankPhotos_again st :
  rankPhotos (mkState (rankPhotos st) (allTags st)) = rankPhotos st.
Proof.
  rewrite (rankPhotos_sortDesc (mkState _ _)). cbn [photos allTags].
  rewrite rankPhotos_length. case_decide as Hlen.
  - done.
  - rewrite rankPhotos_sortDesc, decide_False by done.
    rewrite (sortDesc_fmap_touch _ (scored (allTags st))) by done.
    rewrite (sortDesc_descending_id _ (sortDesc _ _)) by apply sortDesc_descending.
    rewrite <- list_fmap_compose. by apply list_fmap_ext.
Qed.

(** X8: solving a second time changes nothing: on the state that [solve]
    leaves, [solve] returns the same state and the same slides. *)
Theorem solve_idempotent (st st' : State) (slides : list Slide.t) :
  solve st = Some (st', slides) -> solve st' = Some (st', slides).
Proof.
  rewrite solve_slides. intros [= <- <-].
  rewrite solve_slides. cbn [allTags]. by rewrite rankPhotos_again.
Qed.

Lemma solve_idempotent_witness :
  let e (tag : string) (ids : list nat) := (Some tag, TagEntry.mk (Some tag) ids) in
  let st :=
    mkState [Photo.mk 0 "V" [Some "a"] 0; Photo.mk 1 "H" [Some "a"; Some "b"] 0;
             Photo.mk 2 "V" [Some "b"] 0; Photo.mk 3 "H" [Some "a"] 0]
            (list_to_map [e "a" [0; 1; 3]%nat; e "b" [1; 2]%nat]) in
  exists (st' : State) (slides : list Slide.t),
    solve st = Some (st', slides) /\
    Photo.id <$> photos st' = [1; 0; 3; 2]%nat /\
    solve st' = Some (st', slides).
Proof.
  intros e st.
  destruct (solve st) as [[st' slides]|] eqn:Hsolve; [|vm_compute in Hsolve; discriminate].
  exists st', slides. split; [reflexivity|].
  split; [vm_compute in Hsolve; injection Hsolve as <- _; reflexivity|].
  exact (solve_idempotent st st' slides Hsolve).
Defined.

(** X9: [solve] returns one slide for each horizontal photo of the catalog
    and one for each two vertical photos, rounded down; together they show
    each horizontal photo and an even number of vertical photos.  The tag
    index is left as it was. *)
Theorem solve_slide_count (st st' : State) (slides : list Slide.t) :
  solve st = Some (st', slides) ->
  let horizontal := length (filter isHorizontal (photos st)) in
  let vertical := length (filter isVertical (photos st)) in
  length slides = (horizontal + vertical / 2)%nat /\
  length (slideIds slides) = (horizontal + 2 * (vertical / 2))%nat /\
  allTags st' = allTags st /\
  length (photos st') = length (photos st).
Proof.
  rewrite solve_slides. intros [= <- <-]. cbn [allTags photos].
  assert (Hh : length (filter isHorizontal (rankPhotos st))
               = length (filter isHorizontal (photos st))).
  { apply (length_filter_identity isHorizontal (fun i => i.1.2 = "H")); [done|].
    apply rankPhotos_identity. }
  assert (Hv : length (filter isVertical (rankPhotos st))
               = length (filter isVertical (photos st))).
  { apply (length_filter_identity isVertical (fun i => i.1.2 = "V")); [done|].
    apply rankPhotos_identity. }
  split; [|split; [|split]].
  - by rewrite length_app, length_fmap, pairSlides_length, Hh, Hv.
  - rewrite slideIds_app, slideIds_horizontal, slideIds_vertical.
    rewrite length_app, !length_fmap, length_take, Hh, Hv.
    pose proof (Nat.div_mod_eq (length (filter isVertical (photos st))) 2). lia.
  - done.
  - apply rankPhotos_length.
Qed.

Lemma solve_slide_count_witness :
  let st :=
    mkState [Photo.mk 0 "V" [] 0; Photo.mk 1 "H" [] 0; Photo.mk 2 "V" [] 0;
             Photo.mk 3 "V" [] 0; Photo.mk 4 "X" [] 0] ∅ in
  exists (st' : State) (slides : list Slide.t),
    solve st = Some (st', slides) /\
    length slides = 2%nat /\ length (slideIds slides) = 3%nat.
Proof.
  intros st.
  destruct (solve st) as [[st' slides]|] eqn:Hsolve; [|vm_compute in Hsolve; discriminate].
  exists st', slides. split; [reflexivity|].
  destruct (solve_slide_count st st' slides Hsolve) as (Hn & Hids & _).
  split; [exact Hn | exact Hids].
Defined.

(** ** More on the tag index *)

Lemma registrations_elem_of (tag : Tag) (l : list Photo.t) (i : nat) :
  i ∈ registrations tag l <->
  exists photo, photo ∈ l /\ Photo.id photo = i /\ tag ∈ Photo.tags photo.
Proof.
  unfold registrations. rewrite list_elem_of_bind. split.
  - intros (photo & Hi & Hphoto).
    apply list_elem_of_fmap in Hi as (t & -> & Ht).
    apply list_elem_of_filter in Ht as [-> Ht]. eauto.
  - intros (photo & Hphoto & <- & Htag). exists photo. split; [|done].
    apply list_elem_of_fmap. exists tag. split; [done|].
    by apply list_elem_of_filter.
Qed.

Lemma readFile_registrations data st :
  readFile data reset = Some st ->
  forall tag, photoIdsOf (allTags st) tag = registrations tag (photos st).
Proof.
  rewrite readFile_readPhotos.
  destruct (readPhotos (photoLines data) 0) as [new|]; simpl; [|done].
  intros [= <-] tag. cbn [photos allTags].
  rewrite photoIdsOf_registerAll. unfold photoIdsOf. by rewrite lookup_empty.
Qed.

Lemma readFile_index_membership_of (data : string) (st : State) :
  readFile data reset = Some st ->
  forall (tag : Tag) (i : nat),
    i ∈ photoIdsOf (allTags st) tag <->
    exists photo, photo ∈ photos st /\ Photo.id photo = i /\ tag ∈ Photo.tags photo.
Proof.
  intros Hread tag i. rewrite (readFile_registrations data st Hread).
  apply registrations_elem_of.
Qed.

(** X10: on a file whose tag counts are all in the range of [tripCount],
    [readFile] returns a state in which a photo id is registered under a
    tag exactly when the photo of the catalog with that id carries the
    tag. *)
Theorem readFile_index_membership (data : string) :
  Forall countModelled (photoLines data) ->
  exists st : State,
    readFile data reset = Some st /\
    forall (tag : Tag) (i : nat),
      i ∈ photoIdsOf (allTags st) tag <->
      exists photo, photo ∈ photos st /\ Photo.id photo = i /\ tag ∈ Photo.tags photo.
Proof.
  intros Hlines. destruct (readFile_total data reset Hlines) as [st Hread].
  exists st. split; [exact Hread|]. by apply (readFile_index_membership_of data).
Qed.

Lemma readFile_index_membership_witness :
  let data := "2
H 2 a a
V 3 a b" in
  Forall countModelled (photoLines data) /\
  exists st : State,
    readFile data reset = Some st /\
    photoIdsOf (allTags st) (Some "a") = [0; 0; 1]%nat /\
    photoIdsOf (allTags st) None = [1]%nat /\
    (1%nat ∈ photoIdsOf (allTags st) None <->
     exists photo, photo ∈ photos st /\ Photo.id photo = 1%nat /\ None ∈ Photo.tags photo).
Proof.
  intros data.
  assert (Hlines : Forall countModelled (photoLines data)).
  { repeat constructor; vm_compute; eauto. }
  split; [exact Hlines|].
  destruct (readFile_index_membership data Hlines) as (st & Hst & Hiff).
  exists st. split; [exact Hst|].
  specialize (Hiff None 1%nat).
  vm_compute in Hst. injection Hst as <-.
  split; [reflexivity|]. split; [reflexivity|]. exact Hiff.
Defined.

Lemma registerTag_wellFormed (photo : Photo.t) (allTags : gmap Tag TagEntry.t)
    (tag : Tag) :
  entriesWellFormed allTags -> entriesWellFormed (registerTag photo allTags tag).
Proof.
  intros Hwf t e. unfold registerTag.
  destruct (allTags !! tag) as [tagEntry|] eqn:Hentry.
  - destruct (decide (tag = t)) as [->|Hne].
    + rewrite lookup_insert_eq. intros [= <-]. cbn.
      split; [by apply (Hwf t tagEntry)|]. by intros ?%app_nil_r_inv.
    + rewrite lookup_insert_ne by done. apply Hwf.
  - destruct (decide (tag = t)) as [->|Hne].
    + rewrite lookup_insert_eq. by intros [= <-].
    + rewrite lookup_insert_ne by done. apply Hwf.
Qed.

Lemma registerAll_wellFormed (new : list Photo.t) (allTags : gmap Tag TagEntry.t) :
  entriesWellFormed allTags -> entriesWellFormed (registerAll allTags new).
Proof.
  unfold registerAll. revert allTags.
  induction new as [|photo new IH]; intros allTags Hwf; [done|].
  simpl. apply IH. clear IH.
  generalize dependent allTags.
  induction (Photo.tags photo) as [|t ts IHt]; intros allTags Hwf; [done|].
  simpl. by apply IHt, registerTag_wellFormed.
Qed.

Lemma ascending_cons x l :
  ascending (x :: l) <-> (forall y, y ∈ l -> (x <= y)%nat) /\ ascending l.
Proof.
  unfold ascending. split.
  - intros H. split.
    + intros y [j Hj]%list_elem_of_lookup. by apply (H 0%nat (S j) x y); [lia|..].
    + intros i j a b Hij Ha Hb. by apply (H (S i) (S j) a b); [lia|..].
  - intros [Hx Hl] [|i] [|j] a b Hij Ha Hb; simplify_eq/=; try lia.
    + apply Hx, list_elem_of_lookup. eauto.
    + apply (Hl i j a b); [lia|done..].
Qed.

Lemma registrations_ascending (tag : Tag) (l : list Photo.t) (n : nat) :
  Photo.id <$> l = seq n (length l) -> ascending (registrations tag l).
Proof.
  revert n. induction l as [|photo l IH]; intros n Hids.
  - intros i j a b _ Ha. unfold registrations in Ha. simpl in Ha.
    by rewrite lookup_nil in Ha.
  - simpl in Hids. injection Hids as Hid Hrest.
    unfold registrations. rewrite bind_cons. fold (registrations tag l).
    assert (Hlater : forall y, y ∈ registrations tag l -> (Photo.id photo <= y)%nat).
    { intros y (q & Hq & <- & _)%registrations_elem_of.
      assert (Hin : Photo.id q ∈ seq (S n) (length l))
        by (rewrite <- Hrest; by apply list_elem_of_fmap_2).
      apply elem_of_seq in Hin. lia. }
    induction (filter (fun t => t = tag) (Photo.tags photo)) as [|t ts IHts].
    + simpl. by apply (IH (S n)).
    + rewrite fmap_cons. simpl. apply ascending_cons. split; [|done].
      intros y [Hy|Hy]%elem_of_app; [|by apply Hlater].
      apply list_elem_of_fmap in Hy as (? & -> & _). lia.
Qed.

Lemma readFile_index_entries_of (data : string) (st : State) :
  readFile data reset = Some st ->
  entriesWellFormed (allTags st) /\
  (forall tag : Tag,
      is_Some (allTags st !! tag) <->
      exists photo, photo ∈ photos st /\ tag ∈ Photo.tags photo) /\
  (forall tag : Tag, ascending (photoIdsOf (allTags st) tag)).
Proof.
  intros Hread.
  pose proof (readFile_registrations data st Hread) as Hreg.
  pose proof (readFile_ids data st Hread) as Hids.
  assert (Hwf : entriesWellFormed (allTags st)).
  { rewrite readFile_readPhotos in Hread.
    destruct (readPhotos (photoLines data) 0) as [new|]; simpl in Hread; [|done].
    injection Hread as <-. cbn [allTags].
    apply registerAll_wellFormed. intros t e. by rewrite lookup_empty. }
  split; [exact Hwf|]. split.
  - intros tag. split.
    + intros [e He]. destruct (Hwf tag e He) as [_ Hne].
      assert (Hids' : photoIdsOf (allTags st) tag = TagEntry.photoIds e)
        by (unfold photoIdsOf; by rewrite He).
      destruct (TagEntry.photoIds e) as [|i ids] eqn:Hi; [done|].
      assert (Hin : i ∈ registrations tag (photos st))
        by (rewrite <- Hreg, Hids'; left).
      apply registrations_elem_of in Hin as (photo & Hphoto & _ & Htag). eauto.
    + intros (photo & Hphoto & Htag).
      assert (Hin : Photo.id photo ∈ photoIdsOf (allTags st) tag).
      { rewrite Hreg. apply registrations_elem_of. eauto. }
      unfold photoIdsOf in Hin. destruct (allTags st !! tag); [done|].
      by apply elem_of_nil in Hin.
  - intros tag. rewrite Hreg. by apply (registrations_ascending tag _ 0%nat).
Qed.

(** X11: on a file whose tag counts are all in the range of [tripCount],
    [readFile] returns a state in which each entry of the tag index is
    filed under its own tag and is not empty; a tag has an entry exactly
    when a photo of the catalog carries it; and the ids of an entry are in
    reading order, never decreasing. *)
Theorem readFile_index_entries (data : string) :
  Forall countModelled (photoLines data) ->
  exists st : State,
    readFile data reset = Some st /\
    entriesWellFormed (allTags st) /\
    (forall tag : Tag,
        is_Some (allTags st !! tag) <->
        exists photo, photo ∈ photos st /\ tag ∈ Photo.tags photo) /\
    (forall tag : Tag, ascending (photoIdsOf (allTags st) tag)).
Proof.
  intros Hlines. destruct (readFile_total data reset Hlines) as [st Hread].
  exists st. split; [exact Hread|]. by apply (readFile_index_entries_of data).
Qed.

Lemma readFile_index_entries_witness :
  let data := "3
H 2 sea sun
V 1 sun

H 1 sun" in
  Forall countModelled (photoLines data) /\
  exists st : State,
    readFile data reset = Some st /\
    allTags st !! Some "sun" = Some (TagEntry.mk (Some "sun") [0; 1; 2]%nat) /\
    allTags st !! Some "sky" = None /\
    entriesWellFormed (allTags st) /\
    ascending (photoIdsOf (allTags st) (Some "sun")).
Proof.
  intros data.
  assert (Hlines : Forall countModelled (photoLines data)).
  { repeat constructor; vm_compute; eauto. }
  split; [exact Hlines|].
  destruct (readFile_index_entries data Hlines) as (st & Hst & Hwf & _ & Hasc).
  exists st. split; [exact Hst|].
  split; [vm_compute in Hst; injection Hst as <-; reflexivity|].
  split; [vm_compute in Hst; injection Hst as <-; reflexivity|].
  split; [exact Hwf | exact (Hasc (Some "sun"))].
Defined.

(** ** More on reading *)

Lemma append_cons a s1 s2 : String a s1 +:+ s2 = String a (s1 +:+ s2).
Proof. reflexivity. Qed.

Lemma append_nil_l s : "" +:+ s = s.
Proof. reflexivity. Qed.

Lemma append_assoc s1 s2 s3 : (s1 +:+ s2) +:+ s3 = s1 +:+ (s2 +:+ s3).
Proof.
  induction s1 as [|a s1 IH]; [done|].
  by rewrite !append_cons, IH.
Qed.

(** Splitting a text at the first separator. *)
Lemma split_first c a rest :
  hasChar c a = false -> split c (a +:+ String c rest) = a :: split c rest.
Proof.
  induction a as [|x a IH]; intros Ha.
  - rewrite append_nil_l. simpl. by rewrite decide_True.
  - simpl in Ha. destruct (decide (x = c)) as [|Hne]; [done|].
    rewrite append_cons. simpl. rewrite decide_False by done.
    by rewrite IH.
Qed.

Lemma split_none c a : hasChar c a = false -> split c a = [a].
Proof.
  induction a as [|x a IH]; intros Ha; [done|].
  simpl in Ha. destruct (decide (x = c)) as [|Hne]; [done|].
  simpl. rewrite decide_False by done. by rewrite IH.
Qed.

(** X12: [readFile] does not look at the first line: two files that differ
    in their first line only give the same catalog and tag index, and a
    file of a single line gives no photo. *)
Theorem readFile_first_line (first1 first2 body : string) (st : State) :
  hasChar "010" first1 = false -> hasChar "010" first2 = false ->
  readFile (first1 +:+ LF +:+ body) st = readFile (first2 +:+ LF +:+ body) st /\
  readFile first1 st = Some st.
Proof.
  intros H1 H2. unfold readFile, LF. rewrite !append_cons, !append_nil_l.
  rewrite !split_first, (split_none _ first1) by done. split; reflexivity.
Qed.

Lemma readFile_first_line_witness :
  let body := "H 1 a
V 2 b c" in
  hasChar "010" "2" = false /\ hasChar "010" "seven photos" = false /\
  readFile ("2" +:+ LF +:+ body) reset = readFile ("seven photos" +:+ LF +:+ body) reset /\
  (exists st, readFile ("2" +:+ LF +:+ body) reset = Some st /\ length (photos st) = 2%nat) /\
  readFile "2" reset = Some reset.
Proof.
  intros body.
  destruct (readFile_first_line "2" "seven photos" body reset eq_refl eq_refl)
    as [Hsame Hone].
  split; [reflexivity|]. split; [reflexivity|]. split; [exact Hsame|].
  split; [|exact Hone].
  eexists. split; [vm_compute; reflexivity | reflexivity].
Defined.

Lemma readFile_without_reset_of (data : string) (st st' : State) :
  readFile data st = Some st' ->
  exists st0 : State,
    readFile data reset = Some st0 /\
    photos st' = photos st ++ photos st0 /\
    Photo.id <$> photos st0 = seq 0 (length (photos st0)) /\
    forall tag : Tag,
      photoIdsOf (allTags st') tag
      = photoIdsOf (allTags st) tag ++ photoIdsOf (allTags st0) tag.
Proof.
  unfold readFile. rewrite !readFile_loop_readPhotos.
  fold (photoLines data).
  destruct (readPhotos (photoLines data) 0) as [new|] eqn:Hnew; simpl; [|done].
  intros [= <-]. eexists. split; [reflexivity|]. cbn [photos allTags].
  split; [done|]. split; [by apply readPhotos_ids in Hnew|].
  intros tag. rewrite !photoIdsOf_registerAll. unfold photoIdsOf at 3.
  by rewrite lookup_empty.
Qed.

(** X13: [readFile] adds to the state it is given.  On a file whose tag
    counts are all in the range of [tripCount], it returns from any state;
    without [reset], the photos of the file come after the photos already
    there, numbered from 0 again, and their ids are appended to the entries
    already there. *)
Theorem readFile_without_reset (data : string) (st : State) :
  Forall countModelled (photoLines data) ->
  exists st' st0 : State,
    readFile data st = Some st' /\
    readFile data reset = Some st0 /\
    photos st' = photos st ++ photos st0 /\
    Photo.id <$> photos st0 = seq 0 (length (photos st0)) /\
    forall tag : Tag,
      photoIdsOf (allTags st') tag
      = photoIdsOf (allTags st) tag ++ photoIdsOf (allTags st0) tag.
Proof.
  intros Hlines. destruct (readFile_total data st Hlines) as [st' Hread].
  destruct (readFile_without_reset_of data st st' Hread) as (st0 & H0 & Hrest).
  exists st', st0. split; [exact Hread|]. split; [exact H0 | exact Hrest].
Qed.

Lemma readFile_without_reset_witness :
  let data := "1
H 1 a" in
  Forall countModelled (photoLines data) /\
  exists st1 st2 : State,
    readFile data reset = Some st1 /\
    readFile data st1 = Some st2 /\
    Photo.id <$> photos st2 = [0; 0]%nat /\
    photoIdsOf (allTags st2) (Some "a") = [0; 0]%nat.
Proof.
  intros data.
  assert (Hlines : Forall countModelled (photoLines data)).
  { repeat constructor; vm_compute; eauto. }
  split; [exact Hlines|].
  destruct (readFile data reset) as [st1|] eqn:H1; [|vm_compute in H1; discriminate].
  destruct (readFile_without_reset data st1 Hlines)
    as (st2 & st0 & H2 & H0 & Hphotos & _ & Htags).
  exists st1, st2. split; [reflexivity|]. split; [exact H2|].
  rewrite H1 in H0. injection H0 as <-.
  rewrite Hphotos, (Htags (Some "a")).
  vm_compute in H1. injection H1 as <-. split; reflexivity.
Defined.

(** ** More on the tag score *)

Lemma sumZ_nonneg (l : list Z) : Forall (fun z => 0 <= z) l -> 0 <= sumZ l.
Proof. induction 1; unfold sumZ in *; simpl; lia. Qed.

Lemma sumZ_at_least_length (l : list Z) :
  Forall (fun z => 1 <= z) l -> Z.of_nat (length l) <= sumZ l.
Proof. induction 1; unfold sumZ in *; simpl length; simpl foldr; lia. Qed.

Lemma sumZ_zero (l : list Z) : Forall (fun z => z = 0) l -> sumZ l = 0.
Proof. induction 1; unfold sumZ in *; simpl; lia. Qed.

(** After a file has been read, each photo of the catalog is registered
    under each of its tags, so it scores at least their number. *)
Lemma calculateTagScore_at_least data st photo :
  readFile data reset = Some st -> photo ∈ photos st ->
  Z.of_nat (length (Photo.tags photo)) <= calculateTagScore (allTags st) photo.
Proof.
  intros Hread Hphoto. rewrite calculateTagScore_sum.
  rewrite <- (length_fmap (popularity (allTags st))).
  apply sumZ_at_least_length, Forall_fmap, Forall_forall. intros tag Htag.
  unfold popularity. simpl. rewrite (readFile_registrations data st Hread).
  assert (Hin : Photo.id photo ∈ registrations tag (photos st)).
  { apply registrations_elem_of. eauto. }
  destruct (registrations tag (photos st)); [by apply elem_of_nil in Hin|].
  simpl. lia.
Qed.

(** X14: the tag score is never negative; a photo none of whose tags has an
    entry scores 0; and on a file whose tag counts are all in the range of
    [tripCount], [readFile] returns a state in which each photo of the
    catalog scores at least the number of its tags, since it is itself
    registered under each of them. *)
Theorem calculateTagScore_bounds :
  (forall (allTags : gmap Tag TagEntry.t) (photo : Photo.t),
      0 <= calculateTagScore allTags photo) /\
  (forall (allTags : gmap Tag TagEntry.t) (photo : Photo.t),
      (forall tag, tag ∈ Photo.tags photo -> allTags !! tag = None) ->
      calculateTagScore allTags photo = 0) /\
  (forall data : string,
      Forall countModelled (photoLines data) ->
      exists st : State,
        readFile data reset = Some st /\
        forall photo : Photo.t, photo ∈ photos st ->
          Z.of_nat (length (Photo.tags photo))
          <= calculateTagScore (allTags st) photo).
Proof.
  split; [|split].
  - intros allTags photo. rewrite calculateTagScore_sum.
    apply sumZ_nonneg, Forall_fmap, Forall_true. intros tag. unfold popularity. simpl. lia.
  - intros allTags photo Hnone. rewrite calculateTagScore_sum.
    apply sumZ_zero, Forall_fmap, Forall_forall. intros tag Htag.
    unfold popularity, photoIdsOf. simpl. by rewrite (Hnone tag Htag).
  - intros data Hlines. destruct (readFile_total data reset Hlines) as [st Hread].
    exists st. split; [exact Hread|]. intros photo.
    by apply (calculateTagScore_at_least data).
Qed.

Lemma calculateTagScore_bounds_witness :
  let data := "2
H 2 a b
V 3 a" in
  Forall countModelled (photoLines data) /\
  exists (st : State) (photo : Photo.t),
    readFile data reset = Some st /\
    photos st !! 1%nat = Some photo /\
    Photo.tags photo = [Some "a"; None; None] /\
    calculateTagScore (allTags st) photo = 6 /\
    Z.of_nat (length (Photo.tags photo)) <= calculateTagScore (allTags st) photo /\
    calculateTagScore ∅ photo = 0.
Proof.
  intros data.
  assert (Hlines : Forall countModelled (photoLines data)).
  { repeat constructor; vm_compute; eauto. }
  split; [exact Hlines|].
  destruct calculateTagScore_bounds as (_ & Hzero & Hlow).
  destruct (Hlow data Hlines) as (st & Hst & Hle).
  destruct (photos st !! 1%nat) as [photo|] eqn:Hphoto;
    [|vm_compute in Hst; injection Hst as <-; discriminate].
  exists st, photo. split; [exact Hst|]. split; [exact Hphoto|].
  specialize (Hle photo (list_elem_of_lookup_2 _ _ _ Hphoto)).
  pose proof (Hzero ∅ photo (fun tag _ => lookup_empty tag)) as Hz.
  vm_compute in Hst. injection Hst as <-.
  vm_compute in Hphoto. injection Hphoto as <-.
  split; [reflexivity|]. split; [reflexivity|]. split; [exact Hle | exact Hz].
Defined.

(** ** The output *)

Lemma append_nil_r s : s +:+ "" = s.
Proof. induction s as [|a s IH]; [done|]. by rewrite append_cons, IH. Qed.

Lemma hasChar_append c s1 s2 : hasChar c (s1 +:+ s2) = hasChar c s1 || hasChar c s2.
Proof.
  induction s1 as [|a s1 IH]; [done|].
  rewrite append_cons. simpl. by destruct (decide (a = c)).
Qed.

Lemma hasChar_string_of_uint c d :
  isDigit c = false -> hasChar c (NilEmpty.string_of_uint d) = false.
Proof.
  intros Hc. induction d; simpl; [done|..];
    (destruct (decide (_ = c)) as [<-|_]; [discriminate Hc | done]).
Qed.

Lemma hasChar_numberToString c n : isDigit c = false -> hasChar c (numberToString n) = false.
Proof. apply hasChar_string_of_uint. Qed.

(** A number is read back from its digits. *)
Lemma readNumber_numberToString n : readNumber (numberToString n) = Some n.
Proof.
  unfold readNumber, numberToString.
  rewrite NilEmpty.usu. simpl. f_equal. apply DecimalNat.Unsigned.of_to.
Qed.

Lemma writeSlide_line written s : writeSlide written s = written +:+ slideLine s +:+ LF.
Proof.
  unfold writeSlide, slideLine. rewrite <- append_assoc. f_equal.
  generalize written. induction (Slide.photos s) as [|p l IH]; intros w; simpl.
  - by rewrite append_nil_r.
  - by rewrite IH, !append_assoc.
Qed.

Lemma createOutput_written slideshow filename :
  written (createOutput slideshow filename)
  = numberToString (length (Slideshow.slides slideshow)) +:+ LF
    +:+ slideLines (Slideshow.slides slideshow).
Proof.
  unfold createOutput. cbn [written]. rewrite append_nil_l.
  rewrite <- append_assoc.
  generalize (numberToString (length (Slideshow.slides slideshow)) +:+ LF).
  induction (Slideshow.slides slideshow) as [|s l IH]; intros w; simpl.
  - by rewrite append_nil_r.
  - by rewrite IH, writeSlide_line, !append_assoc.
Qed.

Lemma slideLine_no_LF s : hasChar "010" (slideLine s) = false.
Proof.
  unfold slideLine. induction (Slide.photos s) as [|p l IH]; [done|].
  simpl. by rewrite !hasChar_append, hasChar_numberToString, IH.
Qed.

Lemma split_slideLines slides :
  split "010" (slideLines slides) = (slideLine <$> slides) ++ [""].
Proof.
  induction slides as [|s l IH]; [done|].
  simpl. unfold LF. rewrite append_cons, append_nil_l.
  by rewrite split_first, IH by apply slideLine_no_LF.
Qed.

Lemma split_slideLine s :
  split " " (slideLine s) = (numberToString ∘ Photo.id <$> Slide.photos s) ++ [""].
Proof.
  unfold slideLine. induction (Slide.photos s) as [|p l IH]; [done|].
  simpl. change (" " +:+ ?r) with (String " " r).
  by rewrite split_first, IH by (by apply hasChar_numberToString).
Qed.

(** The text of an output is read back. *)
Lemma createOutput_read_back (slideshow : Slideshow.t) (filename : string) :
  parseOutput (written (createOutput slideshow filename))
  = Some (length (Slideshow.slides slideshow),
          (fun slide => Photo.id <$> Slide.photos slide) <$> Slideshow.slides slideshow).
Proof.
  rewrite createOutput_written. unfold parseOutput, LF.
  rewrite append_cons, append_nil_l.
  rewrite split_first by (by apply hasChar_numberToString).
  rewrite readNumber_numberToString, split_slideLines, removelast_last. simpl.
  assert (Hlines :
    mapM (fun line => mapM readNumber (removelast (split " " line)))
         (slideLine <$> Slideshow.slides slideshow)
    = Some ((fun slide => Photo.id <$> Slide.photos slide) <$> Slideshow.slides slideshow)).
  { apply mapM_Some, Forall2_fmap, Forall_Forall2_diag, Forall_forall.
    intros slide _. rewrite split_slideLine, removelast_last.
    apply mapM_Some, Forall2_fmap, Forall_Forall2_diag, Forall_forall.
    intros photo _. apply readNumber_numberToString. }
  by rewrite Hlines.
Qed.

(** X15: the text that [createOutput] writes can be read back: its first
    line is the number of slides, and line [k + 1] lists the ids of the
    photos of slide [k], in order.  So the text determines the slideshow up
    to the ids of its photos, and two slideshows with different id lists
    give different texts. *)
Theorem createOutput_parseOutput (slideshow : Slideshow.t) (filename : string) :
  parseOutput (written (createOutput slideshow filename))
  = Some (length (Slideshow.slides slideshow),
          (fun slide => Photo.id <$> Slide.photos slide) <$> Slideshow.slides slideshow).
Proof. apply createOutput_read_back. Qed.

(** ** The name of the output *)

Lemma length_append s1 s2 :
  String.length (s1 +:+ s2) = (String.length s1 + String.length s2)%nat.
Proof.
  induction s1 as [|a s1 IH]; [done|].
  rewrite append_cons. simpl. by rewrite IH.
Qed.

Lemma lastIndexOf_scan_none c s i found :
  hasChar c s = false -> lastIndexOf_scan c s i found = found.
Proof.
  revert i found. induction s as [|a s IH]; intros i found Hs; [done|].
  simpl in *. destruct (decide (a = c)); [done|]. by apply IH.
Qed.

Lemma lastIndexOf_scan_append c s1 s2 i found :
  lastIndexOf_scan c (s1 +:+ s2) i found
  = lastIndexOf_scan c s2 (i + Z.of_nat (String.length s1)) (lastIndexOf_scan c s1 i found).
Proof.
  revert i found. induction s1 as [|a s1 IH]; intros i found.
  - rewrite append_nil_l. simpl. by rewrite Z.add_0_r.
  - rewrite append_cons. cbn [lastIndexOf_scan String.length]. rewrite IH.
    f_equal. lia.
Qed.

(** The last occurrence is the one after which there is none. *)
Lemma lastIndexOf_last c s1 s2 :
  hasChar c s2 = false ->
  lastIndexOf (s1 +:+ String c s2) c = Z.of_nat (String.length s1).
Proof.
  intros Hs2. unfold lastIndexOf. rewrite lastIndexOf_scan_append.
  simpl. rewrite decide_True by done. by rewrite lastIndexOf_scan_none.
Qed.

Lemma lastIndexOf_none c s : hasChar c s = false -> lastIndexOf s c = -1.
Proof. apply lastIndexOf_scan_none. Qed.

Lemma slice_append_skip s1 s2 k n :
  slice (String.length s1 + k) n (s1 +:+ s2) = slice k n s2.
Proof.
  induction s1 as [|a s1 IH]; [done|].
  rewrite append_cons. simpl. apply IH.
Qed.

Lemma slice_prefix s1 s2 : slice 0 (String.length s1) (s1 +:+ s2) = s1.
Proof.
  induction s1 as [|a s1 IH].
  - rewrite append_nil_l. by destruct s2.
  - rewrite append_cons. simpl. by rewrite IH.
Qed.

Lemma substring_slice s i j :
  0 <= i <= j -> j <= Z.of_nat (String.length s) ->
  substring s i j = slice (Z.to_nat i) (Z.to_nat (j - i)) s.
Proof.
  intros Hij Hj. unfold substring. f_equal; lia.
Qed.

(** With the end before the start, [substring] takes the text between the
    two the other way round; a negative end counts as 0. *)
Lemma substring_swap s i j :
  j <= i -> 0 <= i <= Z.of_nat (String.length s) ->
  substring s i j = slice (Z.to_nat j) (Z.to_nat (i - Z.max j 0)) s.
Proof.
  intros Hji Hi. unfold substring. f_equal; lia.
Qed.

(** X16: for a path [dir/stem.ext], where [stem] has no slash and [ext] has
    neither slash nor dot, the output is named [stem]; the same without a
    directory.  A dot inside [stem] stays. *)
Theorem outputName_stem (dir stem ext : string) :
  hasChar "/" stem = false -> hasChar "/" ext = false -> hasChar "." ext = false ->
  outputName (dir +:+ "/" +:+ stem +:+ "." +:+ ext) = stem /\
  outputName (stem +:+ "." +:+ ext) = stem.
Proof.
  intros Hstem Hext Hdot. unfold outputName. split.
  - change ("/" +:+ ?r) with (String "/" r). change ("." +:+ ?r) with (String "." r).
    rewrite (lastIndexOf_last "/") by (rewrite hasChar_append; simpl; by rewrite Hstem, Hext).
    rewrite <- (append_cons "/" stem), <- append_assoc.
    rewrite (lastIndexOf_last ".") by done.
    rewrite substring_slice; rewrite ?length_append; simpl String.length; try lia.
    replace (Z.to_nat (Z.of_nat (String.length dir) + 1))
      with (String.length dir + 1)%nat by lia.
    replace (Z.to_nat _) with (String.length stem) by lia.
    rewrite append_assoc, slice_append_skip, append_cons. simpl.
    apply slice_prefix.
  - change ("." +:+ ?r) with (String "." r).
    rewrite (lastIndexOf_none "/") by (rewrite hasChar_append; simpl; by rewrite Hstem, Hext).
    rewrite (lastIndexOf_last ".") by done.
    rewrite substring_slice; rewrite ?length_append; simpl String.length; try lia.
    replace (Z.to_nat (-1 + 1)) with 0%nat by lia.
    replace (Z.to_nat _) with (String.length stem) by lia.
    apply slice_prefix.
Qed.

Lemma outputName_stem_witness :
  hasChar "/" "a_example" = false /\ hasChar "/" "txt" = false /\
  hasChar "." "txt" = false /\
  outputName "./files_in/a_example.txt" = "a_example" /\
  outputName ("backup" +:+ "/" +:+ "y.tar" +:+ "." +:+ "gz") = "y.tar".
Proof.
  split; [reflexivity|]. split; [reflexivity|]. split; [reflexivity|]. split.
  - exact (proj1 (outputName_stem "./files_in" "a_example" "txt" eq_refl eq_refl eq_refl)).
  - exact (proj1 (outputName_stem "backup" "y.tar" "gz" eq_refl eq_refl eq_refl)).
Defined.

(** X17: a path without an extension does not give its file name.  Without
    any dot, the output of [dir/name] is named [dir/], and that of a bare
    [name] gets the empty name; when the last dot is before the last slash,
    as in [./dir/name], the name is the text from that dot to that slash. *)
Theorem outputName_without_extension (before dir name : string) :
  hasChar "/" name = false -> hasChar "." name = false -> hasChar "." dir = false ->
  outputName (dir +:+ "/" +:+ name) = dir +:+ "/" /\
  outputName name = "" /\
  outputName (before +:+ "." +:+ dir +:+ "/" +:+ name) = "." +:+ dir +:+ "/".
Proof.
  intros Hslash Hdot Hdir. unfold outputName.
  change ("/" +:+ ?r) with (String "/" r). change ("." +:+ ?r) with (String "." r).
  split; [|split].
  - rewrite (lastIndexOf_last "/") by done.
    rewrite (lastIndexOf_none ".") by (rewrite hasChar_append; simpl; by rewrite Hdir, Hdot).
    rewrite substring_swap; rewrite ?length_append; simpl String.length; try lia.
    replace (Z.to_nat (-1)) with 0%nat by lia.
    replace (Z.to_nat _) with (String.length (dir +:+ "/"))
      by (rewrite length_append; simpl; lia).
    rewrite <- (append_nil_l name), <- append_cons.
    change (String "/" "") with ("/" : string).
    rewrite <- append_assoc. apply slice_prefix.
  - rewrite !lastIndexOf_none by done. by destruct name.
  - rewrite <- (append_cons "." dir), <- append_assoc.
    rewrite (lastIndexOf_last "/") by done.
    rewrite append_assoc, append_cons.
    rewrite (lastIndexOf_last ".")
      by (rewrite hasChar_append; simpl; by rewrite Hdir, Hdot).
    rewrite substring_swap;
      repeat first [rewrite length_append | progress cbn [String.length]]; try lia.
    replace (Z.to_nat (Z.of_nat (String.length before)))
      with (String.length before + 0)%nat by lia.
    rewrite slice_append_skip.
    replace (Z.to_nat _) with (String.length (String "." dir +:+ "/"))
      by (rewrite length_append; simpl; lia).
    rewrite <- (append_nil_l name), <- (append_cons "/" "" name).
    change (String "/" "") with ("/" : string).
    rewrite <- (append_cons "." dir), <- append_assoc. apply slice_prefix.
Qed.

Lemma outputName_without_extension_witness :
  hasChar "/" "a_example" = false /\ hasChar "." "a_example" = false /\
  hasChar "." "/files_in" = false /\
  outputName "./files_in/a_example" = "./files_in/" /\
  outputName "a_example" = "" /\
  outputName ("/files_in" +:+ "/" +:+ "a_example") = "/files_in/".
Proof.
  destruct (outputName_without_extension "" "/files_in" "a_example" eq_refl eq_refl eq_refl)
    as (Hdir & Hbare & Hdot).
  split; [reflexivity|]. split; [reflexivity|]. split; [reflexivity|].
  split; [exact Hdot|]. split; [exact Hbare | exact Hdir].
Defined.

(** ** From the text of a file to its output *)

(** X18: on a file whose tag counts are all in the range of [tripCount],
    the whole run for the file returns: [readFile] returns a state, [solve]
    returns slides, the slideshow is stored with the sum of the scores of
    its consecutive slides, which is not negative, and the output is
    written under [output/<name>.output] with the slides that [solve]
    returned. *)
Theorem processFileOutput_pipeline (f data : string) :
  Forall countModelled (photoLines data) ->
  exists (st st' : State) (slides : list Slide.t) (output : Output),
    readFile data reset = Some st /\
    solve st = Some (st', slides) /\
    processFile data = Some (Slideshow.mk slides (totalScore slides)) /\
    0 <= totalScore slides /\
    processFileOutput f data = Some output /\
    path output = "output/" +:+ outputName f +:+ ".output" /\
    parseOutput (written output)
    = Some (length slides, (fun slide => Photo.id <$> Slide.photos slide) <$> slides).
Proof.
  intros Hlines. destruct (readFile_total data reset Hlines) as [st Hread].
  assert (Hprocess : processFile data
            = Some (Slideshow.mk
                      ((createHorizontalSlide <$> filter isHorizontal (rankPhotos st))
                       ++ pairSlides (filter isVertical (rankPhotos st)))
                      (totalScore
                         ((createHorizontalSlide <$> filter isHorizontal (rankPhotos st))
                          ++ pairSlides (filter isVertical (rankPhotos st)))))).
  { unfold processFile. rewrite Hread. simpl. rewrite solve_slides. simpl.
    by rewrite getScore_total. }
  exists st. eexists _, _, _. split; [exact Hread|].
  split; [apply solve_slides|]. split; [exact Hprocess|].
  split; [apply totalScore_nonneg|].
  unfold processFileOutput. rewrite Hprocess. simpl.
  split; [reflexivity|]. split; [reflexivity|].
  apply createOutput_read_back.
Qed.

Lemma processFileOutput_pipeline_witness :
  let data := "4
H 2 a b
V 1 c
V 1 c
H 1 a" in
  Forall countModelled (photoLines data) /\
  exists (st : State) (output : Output),
    readFile data reset = Some st /\
    processFileOutput "./files_in/a_example.txt" data = Some output /\
    path output = "output/a_example.output" /\
    parseOutput (written output) = Some (3%nat, [[0]; [3]; [1; 2]]%nat).
Proof.
  intros data.
  assert (Hlines : Forall countModelled (photoLines data)).
  { repeat constructor; vm_compute; eauto. }
  split; [exact Hlines|].
  destruct (processFileOutput_pipeline "./files_in/a_example.txt" data Hlines)
    as (st & st' & slides & output & Hst & Hsolve & _ & _ & Hout & Hpath & Hparse).
  exists st, output. split; [exact Hst|]. split; [exact Hout|].
  split; [exact Hpath|]. rewrite Hparse.
  vm_compute in Hst. injection Hst as <-.
  vm_compute in Hsolve. injection Hsolve as _ <-. reflexivity.
Defined.

(** ** A line as the format has it *)

Lemma readDigits_string_of_uint d acc count :
  readDigits (NilEmpty.string_of_uint d) acc count
  = (N.of_nat (Nat.of_uint_acc d (N.to_nat acc)), (count + Decimal.nb_digits d)%nat, "").
Proof.
  revert acc count. induction d; intros acc count;
    cbn [NilEmpty.string_of_uint readDigits Nat.of_uint_acc Decimal.nb_digits];
    [by rewrite N2Nat.id, Nat.add_0_r|..];
    (change (isDigit _) with true; cbv iota; rewrite IHd;
     vm_compute (digitValue _); rewrite Nat.tail_mul_spec;
     f_equal; f_equal; [do 2 f_equal; lia | lia]).
Qed.

Lemma to_uint_not_Nil n : Nat.to_uint n <> Decimal.Nil.
Proof.
  intros Hnil. pose proof (DecimalNat.Unsigned.of_to n) as Hn.
  rewrite Hnil in Hn. simpl in Hn. subst n. discriminate Hnil.
Qed.

(** [parseFloat] reads the digits of a number as that number. *)
Lemma parseFloat_numberToString n :
  parseFloat (Some (numberToString n)) = Decimal false (N.of_nat n) 0.
Proof.
  unfold parseFloat, numberToString, ToString.
  pose proof (DecimalNat.Unsigned.of_to n) as Hn. unfold Nat.of_uint in Hn.
  pose proof (to_uint_not_Nil n) as Hnil.
  pose proof (readDigits_string_of_uint (Nat.to_uint n) 0 0) as Hdigits.
  change (N.to_nat 0) with 0%nat in Hdigits. rewrite Hn in Hdigits.
  destruct (Nat.to_uint n) as [|d|d|d|d|d|d|d|d|d|d]; [done|..];
    cbn [NilEmpty.string_of_uint trimStart isWhiteSpace] in *;
    unfold readUnsigned; cbn [startsWith]; rewrite decide_False by done;
    unfold readUnsignedDecimal; rewrite Hdigits; cbn [readExponent];
    rewrite decide_False by (cbn [Decimal.nb_digits]; lia); done.
Qed.

Lemma tripCount_integer n :
  Z.of_nat n < 2 ^ 32 -> tripCount (Decimal false (N.of_nat n) 0) = Some n.
Proof.
  intros Hn. unfold tripCount.
  destruct (decide (N.of_nat n = 0%N)) as [Hz|Hnz].
  - f_equal. lia.
  - rewrite decide_False by lia. rewrite decide_True by lia.
    change (10 ^ Z.to_N 0)%N with 1%N. rewrite N.mul_1_r.
    rewrite decide_True by lia. f_equal. lia.
Qed.

Lemma split_tagFields tags :
  Forall (fun tag => hasChar " " tag = false) tags ->
  forall field, hasChar " " field = false ->
    split " " (field +:+ tagFields tags) = field :: tags.
Proof.
  induction 1 as [|tag tags Htag Htags IH]; intros field Hfield; simpl.
  - rewrite append_nil_r. by apply split_none.
  - change (" " +:+ ?r) with (String " " r).
    by rewrite split_first, IH.
Qed.

(** The fields from the third on, read by index. *)
Lemma fields_from_third (field1 field2 : string) (tags : list string) :
  (fun j => (field1 :: field2 :: tags) !! (j + 2)%nat) <$> seq 0 (length tags)
  = Some <$> tags.
Proof.
  apply list_eq. intros i. rewrite !list_lookup_fmap.
  destruct (decide (i < length tags)%nat) as [Hlt|Hge].
  - rewrite lookup_seq_lt by done. simpl.
    replace (i + 2)%nat with (S (S i)) by lia. simpl.
    destruct (lookup_lt_is_Some_2 tags i Hlt) as [tag ->]. done.
  - rewrite lookup_seq_ge by lia. by rewrite lookup_ge_None_2 by lia.
Qed.

(** A line as the format has it is read as it stands. *)
Lemma readPhoto_line (orientation : string) (tags : list string)
    (nextIndex : nat) :
  hasChar " " orientation = false ->
  Forall (fun tag => hasChar " " tag = false) tags ->
  Z.of_nat (length tags) < 2 ^ 32 ->
  readPhoto (orientation +:+ " " +:+ numberToString (length tags) +:+ tagFields tags)
            nextIndex
  = Some (Photo.mk nextIndex orientation (Some <$> tags) 0).
Proof.
  intros Hor Htags Hlen. apply readPhoto_Some. exists (length tags).
  change (" " +:+ ?r) with (String " " r).
  rewrite split_first by done.
  rewrite (split_tagFields tags Htags) by (by apply hasChar_numberToString).
  cbn [lookup list_lookup]. rewrite parseFloat_numberToString.
  split; [by apply tripCount_integer|]. cbn [ToString]. f_equal.
  symmetry. apply fields_from_third.
Qed.

(** X19: a line as the format has it is read as it stands: the orientation,
    a space, the number of tags in decimal digits, and each tag after a
    space give a photo with that orientation and those tags in that order,
    when neither the orientation nor a tag contains a space and there are
    fewer than [2 ^ 32] tags. *)
Theorem readPhoto_well_formed (orientation : string) (tags : list string)
    (nextIndex : nat) :
  hasChar " " orientation = false ->
  Forall (fun tag => hasChar " " tag = false) tags ->
  Z.of_nat (length tags) < 2 ^ 32 ->
  readPhoto (orientation +:+ " " +:+ numberToString (length tags) +:+ tagFields tags)
            nextIndex
  = Some (Photo.mk nextIndex orientation (Some <$> tags) 0).
Proof. apply readPhoto_line. Qed.

Lemma readPhoto_well_formed_witness :
  hasChar " " "V" = false /\
  Forall (fun tag => hasChar " " tag = false) ["selfie"; "smile"] /\
  Z.of_nat (length ["selfie"; "smile"]) < 2 ^ 32 /\
  readPhoto "V 2 selfie smile" 7 = Some (Photo.mk 7 "V" [Some "selfie"; Some "smile"] 0).
Proof.
  assert (Htags : Forall (fun tag => hasChar " " tag = false) ["selfie"; "smile"])
    by (repeat constructor).
  assert (Hlen : Z.of_nat (length ["selfie"; "smile"]) < 2 ^ 32) by (simpl; lia).
  split; [reflexivity|]. split; [exact Htags|]. split; [exact Hlen|].
  exact (readPhoto_well_formed "V" ["selfie"; "smile"] 7 eq_refl Htags Hlen).
Defined.

(** ** A file as the format has it *)

Lemma rev_app_append s1 s2 acc :
  String.rev_app (s1 +:+ s2) acc = String.rev_app s2 (String.rev_app s1 acc).
Proof.
  revert acc. induction s1 as [|a s1 IH]; intros acc; [done|].
  rewrite append_cons. simpl. apply IH.
Qed.

Lemma rev_app_acc s acc : String.rev_app s acc = String.rev s +:+ acc.
Proof.
  unfold String.rev. revert acc. induction s as [|a s IH]; intros acc; [done|].
  simpl. rewrite IH, (IH (String a "")), append_assoc. done.
Qed.

Lemma rev_snoc s c : String.rev (s +:+ String c "") = String c (String.rev s).
Proof. unfold String.rev. by rewrite rev_app_append. Qed.

Lemma rev_cons c s : String.rev (String c s) = String.rev s +:+ String c "".
Proof. unfold String.rev at 1. simpl. apply rev_app_acc. Qed.

Lemma rev_rev s : String.rev (String.rev s) = s.
Proof.
  induction s as [|a s IH]; [done|].
  by rewrite rev_cons, rev_snoc, IH.
Qed.

(** [trim] leaves a text that neither starts nor ends with white space. *)
Lemma trim_id a body c :
  isWhiteSpace a = false -> isWhiteSpace c = false ->
  trim (String a body +:+ String c "") = String a body +:+ String c "".
Proof.
  intros Ha Hc. unfold trim. rewrite append_cons. simpl. rewrite Ha.
  rewrite <- append_cons. unfold trimEnd. rewrite rev_snoc. simpl. rewrite Hc.
  by rewrite rev_cons, rev_rev.
Qed.

Lemma word_last s :
  isWord s -> exists body c, s = body +:+ String c "" /\ isWhiteSpace c = false.
Proof.
  intros [Hne Hws]. induction s as [|a s IH]; [done|].
  simpl in Hws. apply orb_false_iff in Hws as [Ha Hs].
  destruct s as [|b s].
  - exists "", a. done.
  - destruct (IH ltac:(done) Hs) as (body & c & -> & Hc).
    exists (String a body), c. done.
Qed.

Lemma hasWhiteSpace_hasChar c s :
  isWhiteSpace c = true -> hasWhiteSpace s = false -> hasChar c s = false.
Proof.
  intros Hc. induction s as [|a s IH]; [done|].
  simpl. intros [Ha Hs]%orb_false_iff.
  destruct (decide (a = c)) as [->|_]; [congruence | by apply IH].
Qed.

Lemma hasWhiteSpace_append s1 s2 :
  hasWhiteSpace (s1 +:+ s2) = hasWhiteSpace s1 || hasWhiteSpace s2.
Proof.
  induction s1 as [|a s1 IH]; [done|].
  rewrite append_cons. simpl. by rewrite IH, orb_assoc.
Qed.

Lemma numberToString_word n : isWord (numberToString n).
Proof.
  unfold numberToString. pose proof (to_uint_not_Nil n) as Hnil. split.
  - by destruct (Nat.to_uint n).
  - clear Hnil. induction (Nat.to_uint n); simpl; done.
Qed.

(** A word followed by fields of words ends with a character that is not
    white space. *)
Lemma fields_last word tags :
  isWord word -> Forall isWord tags ->
  exists body c, word +:+ tagFields tags = body +:+ String c "" /\ isWhiteSpace c = false.
Proof.
  intros Hword Htags. revert word Hword.
  induction Htags as [|tag tags Htag Htags IH]; intros word Hword; simpl.
  - rewrite append_nil_r. by apply word_last.
  - destruct (IH tag Htag) as (body & c & Heq & Hc).
    exists (word +:+ " " +:+ body), c. split; [|done].
    by rewrite Heq, !append_assoc.
Qed.

Lemma photoLine_trim entry : wellFormedEntry entry -> trim (photoLine entry) = photoLine entry.
Proof.
  intros ([Hne Hws] & Htags & _). unfold photoLine.
  destruct (fields_last _ _ (numberToString_word (length entry.2)) Htags)
    as (body & c & -> & Hc).
  destruct entry.1 as [|a o]; [done|].
  simpl in Hws. apply orb_false_iff in Hws as [Ha _].
  rewrite <- !append_assoc. rewrite !append_cons. rewrite <- append_cons.
  by apply trim_id.
Qed.

Lemma isWord_no_char c s : isWhiteSpace c = true -> isWord s -> hasChar c s = false.
Proof. intros Hc [_ Hs]. by apply hasWhiteSpace_hasChar. Qed.

Lemma tagFields_no_LF tags : Forall isWord tags -> hasChar "010" (tagFields tags) = false.
Proof.
  induction 1 as [|tag tags Htag Htags IH]; [done|].
  simpl. by rewrite !hasChar_append, (isWord_no_char "010" tag), IH.
Qed.

Lemma photoLine_no_LF entry : wellFormedEntry entry -> hasChar "010" (photoLine entry) = false.
Proof.
  intros (Hor & Htags & _). unfold photoLine.
  rewrite !hasChar_append, (isWord_no_char "010" entry.1) by done.
  by rewrite hasChar_numberToString, tagFields_no_LF.
Qed.

Lemma photoLines_fileText first entries :
  hasChar "010" first = false -> Forall wellFormedEntry entries ->
  photoLines (fileText first entries) = photoLine <$> entries.
Proof.
  intros Hfirst Hentries. unfold photoLines, fileText, LF.
  rewrite append_cons, append_nil_l, split_first by done. simpl.
  induction Hentries as [|entry entries Hentry Hentries IH]; [done|].
  simpl. rewrite append_cons, append_nil_l.
  rewrite split_first by (by apply photoLine_no_LF).
  rewrite filter_cons_True, IH; [done|].
  destruct Hentry as ([Hne _] & _). unfold photoLine.
  intros Heq. destruct entry.1; [done|]. discriminate Heq.
Qed.

Lemma readPhotos_photoLines entries nextIndex :
  Forall wellFormedEntry entries ->
  readPhotos (photoLine <$> entries) nextIndex = Some (catalogOf nextIndex entries).
Proof.
  intros Hentries. revert nextIndex.
  induction Hentries as [|entry entries Hentry Hentries IH]; intros n; [done|].
  rewrite fmap_cons. cbn [readPhotos catalogOf].
  rewrite photoLine_trim by done.
  destruct Hentry as (Hor & Htags & Hlen). unfold photoLine.
  rewrite readPhoto_line; [|by apply isWord_no_char| |done].
  - simpl. by rewrite IH.
  - eapply Forall_impl; [exact Htags|]. intros tag. by apply isWord_no_char.
Qed.

(** X20: a file as the format has it gives the catalog that it describes.
    When the first line has no line feed, and each photo line is made of an
    orientation and fewer than [2 ^ 32] tags that are words (not empty, no
    white space), [readFile] returns the photos with these orientations and
    tags, in order and numbered from 0, and the tag index of their
    registration. *)
Theorem readFile_fileText (first : string) (entries : list (string * list string)) :
  hasChar "010" first = false -> Forall wellFormedEntry entries ->
  readFile (fileText first entries) reset
  = Some (mkState (catalogOf 0 entries) (registerAll ∅ (catalogOf 0 entries))).
Proof.
  intros Hfirst Hentries.
  rewrite readFile_readPhotos, photoLines_fileText by done.
  by rewrite readPhotos_photoLines.
Qed.

Lemma readFile_fileText_witness :
  let entries := [("H", ["cat"; "beach"]); ("V", []); ("V", ["sun"])] in
  hasChar "010" "3" = false /\
  Forall wellFormedEntry entries /\
  fileText "3" entries = "3
H 2 cat beach
V 0
V 1 sun
" /\
  exists st : State,
    readFile (fileText "3" entries) reset = Some st /\
    photos st = [Photo.mk 0 "H" [Some "cat"; Some "beach"] 0; Photo.mk 1 "V" [] 0;
                 Photo.mk 2 "V" [Some "sun"] 0].
Proof.
  intros entries.
  assert (Hentries : Forall wellFormedEntry entries).
  { repeat (apply Forall_cons; split;
            [split; [done|]; split; [|simpl; lia];
             repeat (apply Forall_cons; split; [done|]); constructor|]).
    constructor. }
  split; [reflexivity|]. split; [exact Hentries|]. split; [reflexivity|].
  eexists. split; [exact (readFile_fileText "3" entries eq_refl Hentries)|].
  reflexivity.
Defined.
